(** * fogbank-scripts: the cluster pre-flight checks, embedded and verified

    A shallow embedding of [check_slaves.py] (version probes, the shared
    version dictionaries, the per-slave threads, reconciliation, the report
    writer, the clock-skew check) and of the POST handler of
    [cpu_ram_monitor.py].

    Conventions of the embedding:
    - a Python 2 [str] is a [string] (a sequence of 8-bit characters);
    - a Python [int] is a [Z];
    - a [dict] from version to list of hosts is an association list with
      pairwise distinct keys, kept in iteration order;
    - [print], file writes, [sys.exit] and uncaught exceptions are explicit:
      a procedure takes the [world] and returns an [outcome]. *)

From Stdlib Require Import Bool Arith ZArith Lia List Ascii String.
From Stdlib Require Import Permutation Sorted DecimalString.
Import ListNotations.

Local Open Scope list_scope.
Local Open Scope string_scope.

(* ================================================================== *)
(** * Definitions *)
(* ================================================================== *)

(** ** Characters and strings *)

Definition LF : ascii := "010"%char.
Definition CR : ascii := "013"%char.
Definition DQUOTE : ascii := "034"%char.

Definition str1 (c : ascii) : string := String c EmptyString.

(** [s] contains no line feed. *)
Fixpoint no_newline (s : string) : bool :=
  match s with
  | EmptyString => true
  | String c s' => negb (Ascii.eqb c LF) && no_newline s'
  end.

(** [output.replace('\r', '')] *)
Fixpoint strip_cr (s : string) : string :=
  match s with
  | EmptyString => EmptyString
  | String c s' => if Ascii.eqb c CR then strip_cr s' else String c (strip_cr s')
  end.

(** [s.split("\n")]: the pieces between line feeds; never empty. *)
Fixpoint split_lf (s : string) : list string :=
  match s with
  | EmptyString => [EmptyString]
  | String c s' =>
      if Ascii.eqb c LF then EmptyString :: split_lf s'
      else match split_lf s' with
           | piece :: pieces => String c piece :: pieces
           | [] => [str1 c]
           end
  end.

(** ** The fragment of Python's [re] used by the probes

    Both patterns are a literal prefix, a greedy capturing group around
    dot-star, an optional literal, and [$] under [re.MULTILINE].  [.]
    matches every character except the line feed; [$] matches at the end of
    the text and just before a line feed. *)

Inductive regex_item : Type :=
| Lit (c : ascii)
| GroupDotStar
| EndOfLine.

Definition regex := list regex_item.

Fixpoint lits (s : string) : regex :=
  match s with
  | EmptyString => []
  | String c s' => Lit c :: lits s'
  end.

Definition at_eol (s : string) : bool :=
  match s with
  | EmptyString => true
  | String c _ => Ascii.eqb c LF
  end.

(** The greedy dot-star group followed by the continuation [k]: the longest
    run is tried first and given back one character at a time.  [acc] is
    what the group holds so far. *)
Fixpoint dot_star (k : string -> string -> option (string * string))
         (s acc : string) : option (string * string) :=
  match s with
  | EmptyString => k s acc
  | String c s' =>
      if Ascii.eqb c LF then k s acc
      else match dot_star k s' (acc ++ str1 c) with
           | Some r => Some r
           | None => k s acc
           end
  end.

(** Backtracking match of [p] at the start of [s]; on success the captured
    group and the text left after the match. *)
Fixpoint match_here (p : regex) (s grp : string) {struct p}
  : option (string * string) :=
  match p with
  | [] => Some (grp, s)
  | Lit c :: p' =>
      match s with
      | String c' s' => if Ascii.eqb c c' then match_here p' s' grp else None
      | EmptyString => None
      end
  | GroupDotStar :: p' => dot_star (match_here p') s EmptyString
  | EndOfLine :: p' => if at_eol s then match_here p' s grp else None
  end.

(** [re.findall]: scan left to right, collect the group of every match and
    resume after it ([skip] characters are still covered by the previous
    match); after an empty match the scan moves on by one character. *)
Fixpoint findall_from (p : regex) (s : string) (skip : nat) {struct s}
  : list string :=
  match skip with
  | S k =>
      match s with
      | String _ s' => findall_from p s' k
      | EmptyString => []
      end
  | O =>
      match match_here p s EmptyString with
      | Some (g, rest) =>
          g :: match s with
               | String _ s' =>
                   findall_from p s' (String.length s - String.length rest - 1)
               | EmptyString => []
               end
      | None =>
          match s with
          | String _ s' => findall_from p s' 0
          | EmptyString => []
          end
      end
  end.

Definition findall (p : regex) (s : string) : list string := findall_from p s 0.

(** ** Version probes (check_slaves.py, lines 20-38) *)

(** The pattern of line 25: version, a space, and a double-quoted greedy
    dot-star group that ends its line. *)
Definition java_re : regex :=
  (lits "version " ++ [Lit DQUOTE; GroupDotStar; Lit DQUOTE; EndOfLine])%list.

(** The pattern of line 35: Hadoop, a space, and a greedy dot-star group up
    to the end of the line. *)
Definition hadoop_re : regex :=
  (lits "Hadoop " ++ [GroupDotStar; EndOfLine])%list.

Definition get_java_version (output : string) : string :=
  match findall java_re output with
  | v :: _ => v
  | [] => EmptyString
  end.

Definition get_hadoop_version (output : string) : string :=
  match findall hadoop_re output with
  | v :: _ => v
  | [] => EmptyString
  end.

(** What both probes return when nothing matches. *)
Definition no_version : string := EmptyString.

(** *** Declarative reading of a match

    [matches p s g g' r]: [p] matches a prefix of [s], leaving [r]; the group
    holds [g] before and [g'] after. *)
Inductive matches : regex -> string -> string -> string -> string -> Prop :=
| M_nil s g : matches [] s g g s
| M_lit c p s g g' r :
    matches p s g g' r -> matches (Lit c :: p) (String c s) g g' r
| M_group p w s g g' r :
    no_newline w = true -> matches p s w g' r ->
    matches (GroupDotStar :: p) (w ++ s) g g' r
| M_eol p s g g' r :
    at_eol s = true -> matches p s g g' r -> matches (EndOfLine :: p) s g g' r.

(** [p] matches in [text] right after the prefix [pre], capturing [g]. *)
Definition occurs (p : regex) (text pre g : string) : Prop :=
  exists s r, text = pre ++ s /\ matches p s EmptyString g r.

(** [g] is the group captured by a leftmost match of [p] in [text]. *)
Definition first_match (p : regex) (text g : string) : Prop :=
  exists pre, occurs p text pre g /\
    forall pre' g', occurs p text pre' g' ->
                    String.length pre <= String.length pre'.

Definition no_match (p : regex) (text : string) : Prop :=
  forall pre g, ~ occurs p text pre g.

(** ** Python built-ins on lists of strings *)

(** [sorted(hosts)]: ascending for the byte-wise order of [str].  The order
    is total and antisymmetric, so every sorting algorithm returns the same
    list; the model inserts one element at a time. *)
Fixpoint insert_sorted (x : string) (l : list string) : list string :=
  match l with
  | [] => [x]
  | y :: l' => if String.leb x y then x :: l else y :: insert_sorted x l'
  end.

Fixpoint sorted (l : list string) : list string :=
  match l with
  | [] => []
  | x :: l' => insert_sorted x (sorted l')
  end.

(** [sep.join(l)] *)
Definition join (sep : string) (l : list string) : string := String.concat sep l.

(** ** Dictionaries from version to hosts

    Entries are kept in iteration order; a new key goes to the end.  Every
    bucket the program stores is a fresh list (lines 49, 217 and 219), so no
    two keys share a list object and a bucket is modelled by its value. *)

Definition dict := list (string * list string).

(** [d[k]]; [None] stands for [KeyError]. *)
Fixpoint getitem (k : string) (d : dict) : option (list string) :=
  match d with
  | [] => None
  | (k', v) :: d' => if String.eqb k k' then Some v else getitem k d'
  end.

(** [k in d] *)
Definition contains (k : string) (d : dict) : bool :=
  match getitem k d with
  | Some _ => true
  | None => false
  end.

(** [d[k] = v] *)
Fixpoint setitem (k : string) (v : list string) (d : dict) : dict :=
  match d with
  | [] => [(k, v)]
  | (k', v') :: d' =>
      if String.eqb k k' then (k, v) :: d' else (k', v') :: setitem k v d'
  end.

(** [del d[k]]; [None] stands for [KeyError]. *)
Fixpoint delitem (k : string) (d : dict) : option dict :=
  match d with
  | [] => None
  | (k', v) :: d' =>
      if String.eqb k k' then Some d'
      else match delitem k d' with
           | Some d'' => Some ((k', v) :: d'')
           | None => None
           end
  end.

Definition keys (d : dict) : list string := map fst d.

(** The keys of a dictionary are pairwise distinct. *)
Definition well_formed (d : dict) : Prop := NoDup (keys d).

(** Number of host entries, summed over all buckets. *)
Definition total_entries (d : dict) : nat :=
  list_sum (map (fun kv => List.length (snd kv)) d).

(** ** The world: standard output, files, exits and exceptions *)

Inductive exn : Type :=
| KeyError
| IndexError
| SSHException.

Record world : Type := mkWorld {
  stdout : string;                    (* everything written so far *)
  files : list (string * string)      (* path and content *)
}.

Inductive outcome (A : Type) : Type :=
| Returned (a : A) (w : world)
| Exited (code : Z) (w : world)         (* [sys.exit(code)] *)
| Raised (e : exn) (w : world).         (* uncaught exception *)

Arguments Returned {A} a w.
Arguments Exited {A} code w.
Arguments Raised {A} e w.

Definition bind {A B : Type} (m : outcome A) (f : A -> world -> outcome B)
  : outcome B :=
  match m with
  | Returned a w => f a w
  | Exited c w => Exited c w
  | Raised e w => Raised e w
  end.

Definition final_world {A : Type} (m : outcome A) : world :=
  match m with
  | Returned _ w | Exited _ w | Raised _ w => w
  end.

(** [sys.stdout.write(s)] *)
Definition write_stdout (s : string) (w : world) : world :=
  mkWorld (stdout w ++ s) (files w).

(** [print(s)] *)
Definition print (s : string) (w : world) : world :=
  write_stdout (s ++ str1 LF) w.

Fixpoint set_file (path content : string) (fs : list (string * string))
  : list (string * string) :=
  match fs with
  | [] => [(path, content)]
  | (p, c) :: fs' =>
      if String.eqb path p then (path, content) :: fs'
      else (p, c) :: set_file path content fs'
  end.

Fixpoint read_file (path : string) (fs : list (string * string))
  : option string :=
  match fs with
  | [] => None
  | (p, c) :: fs' => if String.eqb path p then Some c else read_file path fs'
  end.

(** [open(path, "w")], the writes, and the close at the end of [with]. *)
Definition write_file (path content : string) (w : world) : world :=
  mkWorld (stdout w) (set_file path content (files w)).

(** check_slaves.py, lines 12-18 *)
Definition exit_with_msg {A : Type} (msg : string) (w : world) : outcome A :=
  Exited 1 (print msg w).

(** ** [add_to_dict] (lines 40-51)

    The lock makes the body one atomic step.  The result is the dictionary
    after the call; [None] stands for the [KeyError] of line 47. *)
Definition add_to_dict (version host : string) (dic : dict) : option dict :=
  if String.eqb version EmptyString then
    match getitem "none" dic with
    | Some hosts => Some (setitem "none" (hosts ++ [host])%list dic)
    | None => None
    end
  else if negb (contains version dic) then
    Some (setitem version [host] dic)
  else
    match getitem version dic with
    | Some hosts => Some (setitem version (hosts ++ [host])%list dic)
    | None => None
    end.

(** ** [write_to_file] (lines 65-75) *)

(** [os.path.join(a, b)] on POSIX. *)
Definition path_join (a b : string) : string :=
  if String.prefix "/" b then b
  else if String.eqb a EmptyString
          || String.eqb (substring (String.length a - 1) 1 a) "/"
       then a ++ b
       else a ++ "/" ++ b.

Definition separator : string :=
  "---------------------------------------------------".

(** What the loop body of lines 72-75 writes for one entry. *)
Definition render_entry (entry : string * list string) : string :=
  let (version, hosts) := entry in
  "Version " ++ version ++ ":" ++ str1 LF
  ++ join EmptyString (map (fun host => host ++ str1 LF) (sorted hosts))
  ++ separator ++ str1 LF.

(** Everything written to the file, in the order of [data.items()]. *)
Definition render (data : dict) : string :=
  join EmptyString (map render_entry data).

(** The first component is the caller's dictionary after the call: [data]
    is the caller's object and [del] changes it in place. *)
Definition write_to_file (cwd : string) (data : dict) (filename : string)
           (w : world) : dict * outcome unit :=
  match delitem "none" data with
  | None => (data, Raised KeyError w)
  | Some data' =>
      let fn := path_join cwd filename in
      let w1 := print ("Writing to " ++ fn) w in
      (data', Returned tt (write_file fn (render data') w1))
  end.

(** ** Reconciliation (lines 223-231) *)

(** [if vers["none"]: exit_with_msg(prefix + sep.join(sorted(vers["none"])))] *)
Definition check_none (prefix sep : string) (vers : dict) (w : world)
  : outcome unit :=
  match getitem "none" vers with
  | None => Raised KeyError w
  | Some [] => Returned tt w
  | Some hosts => exit_with_msg (prefix ++ join sep (sorted hosts)) w
  end.

Definition java_none_prefix : string :=
  "Please check the Java installation on these nodes: ".

Definition hadoop_none_prefix : string :=
  "Please check the Hadoop installation on these nodes: ".

(** lines 223-226 *)
Definition check_java_none : dict -> world -> outcome unit :=
  check_none java_none_prefix ",".

(** lines 228-231 *)
Definition check_hadoop_none : dict -> world -> outcome unit :=
  check_none hadoop_none_prefix ", ".


(** ** Checks on the master (lines 137-160)

    The text printed by the local command is an input. *)

Definition check_java_master (java_stderr : string) (w : world)
  : outcome string :=
  let java_ver := get_java_version java_stderr in
  if String.eqb java_ver EmptyString then
    exit_with_msg "Please check if java is installed, using java -version." w
  else Returned java_ver w.

Definition check_hadoop_master (hadoop_stdout : string) (w : world)
  : outcome string :=
  let hadoop_ver := get_hadoop_version hadoop_stdout in
  if String.eqb hadoop_ver EmptyString then
    exit_with_msg
      ("Please check if Hadoop is installed, and the "
       ++ "Hadoop executable files are in the PATH variable. "
       ++ "Check using 'hadoop version' and 'echo $PATH'.") w
  else Returned hadoop_ver w.

(** The dictionary display [{ver : [host], "none" : []}] of lines 217 and
    219: the items are stored left to right, a repeated key keeps the last
    value. *)
Definition initial_vers (ver host : string) : dict :=
  setitem "none" [] (setitem ver [host] []).

(** ** The remote dialogue of one slave (lines 53-63 and 162-184) *)

(** What the channel does after a command was sent. *)
Inductive reply : Type :=
| Output (raw : string)     (* [recv(999)] returns these bytes *)
| Broken                    (* [send] or [recv] raises *)
| Silent.                   (* [recv_ready()] stays false: the loop never ends *)

(** An interactive shell: the reply to the [n]-th command sent. *)
Definition shell := nat -> string -> reply.

Inductive dialogue : Type :=
| Versions (java_ver hadoop_ver : string)
| Fails (e : exn)
| Hangs.

Definition run_remote_command (cmd : string) (n : nat) (channel : shell)
           (k : string -> dialogue) : dialogue :=
  match channel n cmd with
  | Output raw => k (strip_cr raw)
  | Broken => Fails SSHException
  | Silent => Hangs
  end.

(** Lines 164-184; [connect slave] is [None] when [ssh.connect],
    [invoke_shell] or the read of the welcome message raises. *)
Definition remote_versions (connect : string -> option shell) (slave : string)
  : dialogue :=
  match connect slave with
  | None => Fails SSHException
  | Some channel =>
      run_remote_command ("java -version" ++ str1 LF) 0 channel (fun output =>
      let java_ver := get_java_version output in
      run_remote_command ("which hadoop" ++ str1 LF) 1 channel (fun output =>
      match nth_error (split_lf output) 1 with
      | None => Fails IndexError
      | Some hadoop_path =>
          let hadoop_path :=
            if String.eqb hadoop_path EmptyString
            then "/usr/local/hadoop/bin/hadoop" else hadoop_path in
          run_remote_command (hadoop_path ++ " version" ++ str1 LF) 2 channel
            (fun output =>
               let hadoop_ver := get_hadoop_version output in
               Versions java_ver hadoop_ver)
      end))
  end.

(** ** The threads of [check_java_hadoop_slaves] (lines 162-209) *)

(** Where a [check_slave_vers] thread stands. *)
Inductive thread : Type :=
| Probing (slave : string)                        (* lines 164-184 *)
| AddJava (slave java_ver hadoop_ver : string)    (* before line 186 *)
| AddHadoop (slave hadoop_ver : string)           (* before line 187 *)
| Finished
| Died (e : exn).

Record inventory : Type := mkInventory {
  java_vers : dict;
  hadoop_vers : dict;
  threads : list thread
}.

(** One step of one thread on the shared dictionaries; [None] when the
    thread cannot move (it has ended, or it waits for output for ever). *)
Definition thread_step (connect : string -> option shell) (t : thread)
           (jv hv : dict) : option (thread * dict * dict) :=
  match t with
  | Probing slave =>
      match remote_versions connect slave with
      | Versions java_ver hadoop_ver =>
          Some (AddJava slave java_ver hadoop_ver, jv, hv)
      | Fails e => Some (Died e, jv, hv)
      | Hangs => None
      end
  | AddJava slave java_ver hadoop_ver =>
      match add_to_dict java_ver slave jv with
      | Some jv' => Some (AddHadoop slave hadoop_ver, jv', hv)
      | None => Some (Died KeyError, jv, hv)
      end
  | AddHadoop slave hadoop_ver =>
      match add_to_dict hadoop_ver slave hv with
      | Some hv' => Some (Finished, jv, hv')
      | None => Some (Died KeyError, jv, hv)
      end
  | Finished => None
  | Died _ => None
  end.

Fixpoint replace_nth {A : Type} (n : nat) (x : A) (l : list A) : list A :=
  match l, n with
  | [], _ => []
  | _ :: l', O => x :: l'
  | y :: l', S n' => y :: replace_nth n' x l'
  end.

(** The scheduler lets any thread take its next step. *)
Inductive step (connect : string -> option shell) : inventory -> inventory -> Prop :=
| step_thread i t t' jv' hv' st :
    nth_error (threads st) i = Some t ->
    thread_step connect t (java_vers st) (hadoop_vers st) = Some (t', jv', hv') ->
    step connect st (mkInventory jv' hv' (replace_nth i t' (threads st))).

Inductive steps (connect : string -> option shell) : inventory -> inventory -> Prop :=
| steps_refl st : steps connect st st
| steps_cons st1 st2 st3 :
    step connect st1 st2 -> steps connect st2 st3 -> steps connect st1 st3.

Definition ended (t : thread) : bool :=
  match t with
  | Finished | Died _ => true
  | _ => false
  end.

(** Every [join] of lines 208-209 has returned. *)
Definition all_joined (st : inventory) : bool := forallb ended (threads st).

(** Lines 197-203: one thread per slave, none started yet. *)
Definition spawn (jv hv : dict) (slaves : list string) : inventory :=
  mkInventory jv hv (map Probing slaves).

(** [check_java_hadoop_slaves(java_vers, hadoop_vers)] returns with the
    dictionaries [jv'] and [hv']. *)
Definition check_java_hadoop_slaves (connect : string -> option shell)
           (slaves : list string) (jv hv jv' hv' : dict) : Prop :=
  exists st, steps connect (spawn jv hv slaves) st /\
             all_joined st = true /\ java_vers st = jv' /\ hadoop_vers st = hv'.

(** ** [check_versions] (lines 211-236) *)

Record environment : Type := mkEnvironment {
  hostname : string;                   (* [os.uname()[1]] *)
  java_stderr : string;                (* of [java -version] on the master *)
  hadoop_stdout : string;              (* of [hadoop version] on the master *)
  slaves : list string;                (* [get_slaves()] *)
  connect : string -> option shell;
  cwd : string                         (* [os.getcwd()] *)
}.

(** Lines 216-219: the two dictionaries before the slaves are probed. *)
Definition seed_versions (env : environment) (w : world)
  : outcome (dict * dict) :=
  bind (check_java_master (java_stderr env) w) (fun java_ver w1 =>
  bind (check_hadoop_master (hadoop_stdout env) w1) (fun hadoop_ver w2 =>
  Returned (initial_vers java_ver (hostname env),
            initial_vers hadoop_ver (hostname env)) w2)).

(** [inventory_of env jv hv]: the dictionaries line 221 can leave behind. *)
Definition inventory_of (env : environment) (jv hv : dict) : Prop :=
  exists w jv0 hv0 w0,
    seed_versions env w = Returned (jv0, hv0) w0 /\
    check_java_hadoop_slaves (connect env) (slaves env) jv0 hv0 jv hv.

(** ** [check_time_skew] (lines 238-276) *)

Definition TAB : ascii := "009"%char.
Definition ESC : ascii := "027"%char.

(** [str(n)] for an integer. *)
Definition str_of_int (n : Z) : string := NilZero.string_of_int (Z.to_int n).

Definition time_threshold : Z := 20000.

(** Lines 259-267 for one slave whose measured difference is [time_skew]. *)
Definition report_skew (above_threshold : bool) (w : world)
           (slave : string) (time_skew : Z) : bool * world :=
  if (Z.abs time_skew >=? time_threshold)%Z then
    let w := write_stdout ("Host:" ++ str1 TAB ++ slave) w in
    let w := write_stdout (str1 ESC ++ "[1;31m") w in
    let w := write_stdout (str1 TAB ++ "Difference:" ++ str1 TAB
                           ++ str_of_int time_skew ++ "ms" ++ str1 LF) w in
    let w := write_stdout (str1 ESC ++ "[0;0m") w in
    (true, w)
  else
    (above_threshold,
     print ("Host:" ++ str1 TAB ++ slave ++ str1 TAB ++ "Difference:"
            ++ str1 TAB ++ str_of_int time_skew ++ "ms") w).

(** The loop of lines 252-267 over the slaves and their measurements. *)
Fixpoint report_skews (above_threshold : bool) (w : world)
         (measured : list (string * Z)) : bool * world :=
  match measured with
  | [] => (above_threshold, w)
  | (slave, time_skew) :: rest =>
      let (above_threshold', w') := report_skew above_threshold w slave time_skew in
      report_skews above_threshold' w' rest
  end.

Definition skew_failure_msg : string :=
  "The host(s) displayed in red means that time difference between the host "
  ++ "and the master(this node) is greater than the threshold (20 seconds). "
  ++ "Please consider using NTP to synchronise the time in the cluster.".

(** [which_clockdiff] is the output of [which clockdiff]; [measured] lists
    the slaves in order with the integer read from clockdiff's output. *)
Definition check_time_skew (which_clockdiff : string)
           (measured : list (string * Z)) (w : world) : outcome unit :=
  if String.eqb which_clockdiff EmptyString then
    exit_with_msg ("Need clockdiff to calculate time skew."
                   ++ "Please install using sudo apt install iputils-clockdiff") w
  else
    let w := print (str1 LF ++ "Calculating time skew...") w in
    let w := print "------------------------" w in
    let (above_threshold, w) := report_skews false w measured in
    if above_threshold then exit_with_msg skew_failure_msg w
    else Returned tt
           (print ("The time difference between nodes in the cluster is fine."
                   ++ "You may start up hadoop using ./run_dfs.py.") w).

(** A slave is flagged when its line is the one written in red. *)
Definition flagged (time_skew : Z) : bool :=
  fst (report_skew false (mkWorld EmptyString []) EmptyString time_skew).

(** ** The POST handler of cpu_ram_monitor.py (lines 9-70) *)

Module Monitor.

Definition PORT : Z := 12345.
Definition paths : list string := ["/start-monitoring"; "/end-monitoring"].

(** What a request makes the handler do, in order. *)
Inductive event : Type :=
| SendResponse (code : Z)
| SendHeader (name value : string)
| EndHeaders
| WriteBody (body : string)
| StartTimer (main_server : string)      (* [Timer(1.0, self.monitor, ...)] *)
| PushStats (main_server : string).      (* [requests.post(url, ...)] *)

Definition _set_headers (code : Z) (ctype : string) : list event :=
  [SendResponse code; SendHeader "Content-type" ctype; EndHeaders].

(** Lines 55-70, when called with the flag [monitoring_active]. *)
Definition monitor (monitoring_active : bool) (main_server : string)
  : list event :=
  if negb monitoring_active then []
  else [StartTimer main_server; PushStats main_server].

(** Lines 26-50: the flag after the request and the events of the request. *)
Definition do_POST (path client_address : string) (monitoring_active : bool)
  : bool * list event :=
  if negb (existsb (String.eqb path) paths) then
    (monitoring_active,
     _set_headers 404 "text/html" ++ [WriteBody ("Path not found" ++ str1 LF)])%list
  else if String.eqb path (nth 0 paths EmptyString) then
    if monitoring_active then
      (monitoring_active,
       _set_headers 405 "text/html"
       ++ [WriteBody ("Monitoring is already active" ++ str1 LF)])%list
    else
      (true,
       monitor true client_address
       ++ _set_headers 200 "text/html" ++ [WriteBody "Success"])%list
  else
    (false, _set_headers 200 "text/html" ++ [WriteBody "Success"])%list.

(** The status line of a request's answer. *)
Definition status (events : list event) : option Z :=
  match filter (fun e => match e with SendResponse _ => true | _ => false end)
               events with
  | SendResponse code :: _ => Some code
  | _ => None
  end.

Definition body (events : list event) : list string :=
  flat_map (fun e => match e with WriteBody b => [b] | _ => [] end) events.

End Monitor.

(** ** Reading a report back

    The source has no reader for the report files.  This one follows the
    layout the writer produces: the text is cut into lines; a block is a
    header line [Version v:], then one host per line up to the separator
    line. *)

(** The lines of a text, each ended by a line feed (a last line without
    one counts too). *)
Fixpoint lines_of (s : string) : list string :=
  match s with
  | EmptyString => []
  | String c s' =>
      if Ascii.eqb c LF then EmptyString :: lines_of s'
      else match lines_of s' with
           | l :: ls => String c l :: ls
           | [] => [str1 c]
           end
  end.

(** [Version v:] gives [v]. *)
Definition parse_header (line : string) : option string :=
  if String.prefix "Version " line
     && String.eqb (substring (String.length line - 1) 1 line) ":"
  then Some (substring 8 (String.length line - 9) line)
  else None.

(** [cur] is the block being read, if any. *)
Fixpoint parse_blocks (cur : option (string * list string))
         (ls : list string) : option (list (string * list string)) :=
  match ls with
  | [] => match cur with
          | None => Some []
          | Some _ => None
          end
  | l :: ls' =>
      match cur with
      | None =>
          match parse_header l with
          | Some v => parse_blocks (Some (v, [])) ls'
          | None => None
          end
      | Some (v, hosts) =>
          if String.eqb l separator then
            match parse_blocks None ls' with
            | Some blocks => Some ((v, hosts) :: blocks)
            | None => None
            end
          else parse_blocks (Some (v, hosts ++ [l])%list) ls'
      end
  end.

Definition reparse_report (content : string)
  : option (list (string * list string)) :=
  parse_blocks None (lines_of content).

(** The pairs a report is expected to hold for a dictionary. *)
Definition report_pairs (d : dict) : list (string * list string) :=
  map (fun kv => (fst kv, sorted (snd kv))) d.

(** ** Auxiliary notions for the statements *)

(** [p] captures at most one group at a given position. *)
Definition functional (p : regex) : Prop :=
  forall s g0 g1 r1 g2 r2,
    matches p s g0 g1 r1 -> matches p s g0 g2 r2 -> g1 = g2.

(** What it means for [probe] to implement the pattern [p] on [output]. *)
Definition probe_spec (p : regex) (probe : string -> string)
           (output : string) : Prop :=
  ((exists g, first_match p output g /\ probe output = g) \/
   (no_match p output /\ probe output = no_version)) /\
  (forall g, first_match p output g -> probe output = g).


(** The order [sorted] sorts by. *)
Definition str_le (a b : string) : Prop := String.leb a b = true.

(** The bucket a call to [add_to_dict] is aimed at. *)
Definition target_bucket (version : string) : string :=
  if String.eqb version EmptyString then "none" else version.

(** What lines 259-267 write for one slave. *)
Definition skew_text (slave : string) (time_skew : Z) : string :=
  stdout (snd (report_skew false (mkWorld EmptyString []) slave time_skew)).

(** The two lines printed before the loop (lines 247-248). *)
Definition skew_heading : string :=
  str1 LF ++ "Calculating time skew..." ++ str1 LF
  ++ "------------------------" ++ str1 LF.

(** ** Bookkeeping for the threads *)

(** The dialogue with [slave] runs to its end and yields two versions. *)
Definition completes (connect : string -> option shell) (slave : string) : bool :=
  match remote_versions connect slave with
  | Versions _ _ => true
  | _ => false
  end.

(** Entries a thread has still to add to the Java dictionary. *)
Definition owed_java (connect : string -> option shell) (t : thread) : nat :=
  match t with
  | Probing slave => if completes connect slave then 1 else 0
  | AddJava _ _ _ => 1
  | _ => 0
  end.

(** Entries a thread has still to add to the Hadoop dictionary. *)
Definition owed_hadoop (connect : string -> option shell) (t : thread) : nat :=
  match t with
  | Probing slave => if completes connect slave then 1 else 0
  | AddJava _ _ _ => 1
  | AddHadoop _ _ => 1
  | _ => 0
  end.

(** Steps a thread can still take, at most. *)
Definition rank (t : thread) : nat :=
  match t with
  | Probing _ => 3
  | AddJava _ _ _ => 2
  | AddHadoop _ _ => 1
  | _ => 0
  end.

Definition total_rank (st : inventory) : nat := list_sum (map rank (threads st)).

(** What the dictionaries and the threads still owe add up to a constant. *)
Definition balanced (connect : string -> option shell) (nj nh : nat)
           (st : inventory) : Prop :=
  contains "none" (java_vers st) = true /\
  contains "none" (hadoop_vers st) = true /\
  total_entries (java_vers st)
    + list_sum (map (owed_java connect) (threads st)) = nj /\
  total_entries (hadoop_vers st)
    + list_sum (map (owed_hadoop connect) (threads st)) = nh.

(** No thread that is still probing waits for ever. *)
Definition no_hang (connect : string -> option shell) (st : inventory) : Prop :=
  forall slave, In (Probing slave) (threads st) ->
                remote_versions connect slave <> Hangs.

(** ** Sample environments *)

(** A shell that echoes the command and answers like an installed node. *)
Definition sample_shell : shell := fun n _ =>
  match n with
  | 0 => Output ("java -version" ++ str1 CR ++ str1 LF
                 ++ "java version " ++ str1 DQUOTE ++ "1.8.0_131" ++ str1 DQUOTE
                 ++ str1 CR ++ str1 LF)
  | 1 => Output ("which hadoop" ++ str1 CR ++ str1 LF
                 ++ "/usr/local/hadoop/bin/hadoop" ++ str1 CR ++ str1 LF)
  | _ => Output ("/usr/local/hadoop/bin/hadoop version" ++ str1 CR ++ str1 LF
                 ++ "Hadoop 2.7.3" ++ str1 CR ++ str1 LF)
  end.

Definition sample_java_stderr : string :=
  "java version " ++ str1 DQUOTE ++ "1.8.0_131" ++ str1 DQUOTE ++ str1 LF.

Definition sample_hadoop_stdout : string :=
  "Hadoop 2.7.3" ++ str1 LF ++ "Subversion unknown" ++ str1 LF.

(** Two slaves, both answering. *)
Definition sample_env : environment :=
  mkEnvironment "master" sample_java_stderr sample_hadoop_stdout
                ["w1"; "w2"] (fun _ => Some sample_shell) "/home/hduser".

(** Two slaves; the connection to the first one is refused. *)
Definition refusing_env : environment :=
  mkEnvironment "master" sample_java_stderr sample_hadoop_stdout
                ["w1"; "w2"]
                (fun slave => if String.eqb slave "w1" then None
                              else Some sample_shell)
                "/home/hduser".

(** The content of the report file after [write_to_file], if it returned. *)
Definition report_written (cwd : string) (data : dict) (filename : string)
           (w : world) : option string :=
  match write_to_file cwd data filename w with
  | (_, Returned _ w') => read_file (path_join cwd filename) (files w')
  | _ => None
  end.

(** The dictionary without its none bucket. *)
Definition without_none (d : dict) : dict :=
  filter (fun kv => negb (String.eqb "none" (fst kv))) d.

(** Versions and hosts fit on a line of the report: no line feed inside,
    and no host that reads like the separator line. *)
Definition fits_lines (d : dict) : Prop :=
  forall version hosts,
    In (version, hosts) d ->
    no_newline version = true /\
    forall host, In host hosts ->
                 no_newline host = true /\ host <> separator.

(** The same buckets with the same members, whatever the order in which
    keys and members were inserted. *)
Definition same_map (d1 d2 : dict) : Prop :=
  forall k,
    match getitem k d1, getitem k d2 with
    | Some hosts1, Some hosts2 => Permutation hosts1 hosts2
    | None, None => True
    | _, _ => False
    end.

(** The same inventory, filled in two different orders. *)
Definition sample_vers : dict :=
  [("8", ["m"; "w1"]); ("11", ["w3"]); ("none", [])].

Definition sample_vers_reordered : dict :=
  [("none", []); ("11", ["w3"]); ("8", ["w1"; "m"])].

(** ** [check_ping] (lines 77-111) *)

(** [s.startswith(sub)] *)
Fixpoint starts_with (sub s : string) : bool :=
  match sub, s with
  | EmptyString, _ => true
  | String _ _, EmptyString => false
  | String a sub', String b s' => Ascii.eqb a b && starts_with sub' s'
  end.

(** [sub in s] for two [str]. *)
Fixpoint is_substring (sub s : string) : bool :=
  starts_with sub s
  || match s with
     | EmptyString => false
     | String _ s' => is_substring sub s'
     end.

Definition success_msg : string :=
  "1 packets transmitted, 1 received, 0% packet loss".

(** The three lists of lines 80-82. *)
Record ping_lists : Type := mkPingLists {
  successful_ping : list string;
  fail_ping : list string;
  unknown_ping : list string
}.

(** Lines 86-92 for one slave and the text [ping -c 1 slave] printed. *)
Definition record_ping (acc : ping_lists) (slave stdout : string) : ping_lists :=
  if is_substring success_msg stdout then
    mkPingLists (successful_ping acc ++ [slave]) (fail_ping acc) (unknown_ping acc)
  else if is_substring "unknown host" stdout then
    mkPingLists (successful_ping acc) (fail_ping acc) (unknown_ping acc ++ [slave])
  else
    mkPingLists (successful_ping acc) (fail_ping acc ++ [slave]) (unknown_ping acc).

(** The loop of lines 83-92; [pinged] lists the slaves in order, each with
    the output of its ping. *)
Fixpoint ping_slaves (acc : ping_lists) (pinged : list (string * string))
  : ping_lists :=
  match pinged with
  | [] => acc
  | (slave, stdout) :: rest => ping_slaves (record_ping acc slave stdout) rest
  end.

Definition unknown_hosts_msg (unknown : string) : string :=
  "The following hosts are unknown: " ++ unknown ++ ". Please add "
  ++ "these hostnames and the corresponding IP addresses to /etc/hosts".

Definition cannot_ping_msg (fails : string) : string :=
  "Cannot ping " ++ fails ++ ". Please check connectivity to these nodes.".

Definition no_slaves_msg : string :=
  "Please configure the Hadoop slave file to list the datanodes."
  ++ "This file is typically in /usr/local/hadoop/etc/hadoop/slaves".

Definition check_ping (pinged : list (string * string)) (w : world)
  : outcome unit :=
  let lists := ping_slaves (mkPingLists [] [] []) pinged in
  match unknown_ping lists with
  | _ :: _ => exit_with_msg (unknown_hosts_msg (join ", " (unknown_ping lists))) w
  | [] =>
      match fail_ping lists with
      | _ :: _ => exit_with_msg (cannot_ping_msg (join ", " (fail_ping lists))) w
      | [] =>
          match successful_ping lists with
          | [] => exit_with_msg no_slaves_msg w
          | _ :: _ =>
              Returned tt
                (print ("Sucessfully ping-ed these nodes: "
                        ++ join ", " (successful_ping lists)) w)
          end
      end
  end.

(** ** [check_ssh] (lines 113-135) *)

(** How [ssh.connect] on one slave ends.  An entry of [errors] is the
    address, the port and the second component of the error. *)
Inductive ssh_connect : Type :=
| Connected
| AuthenticationException (e : string)              (* [str(e)] *)
| NoValidConnectionsError (errors : list (string * Z * string))
| OtherFailure.                                     (* not caught *)

(** Lines 121-127 *)
Definition authentication_msg (e slave : string) : string :=
  "Received an exception: " ++ e
  ++ str1 LF ++ "This means that either:" ++ str1 LF
  ++ "1. The username on this host does not match the one on " ++ slave ++ ". "
  ++ "Please create a user that matches." ++ str1 LF
  ++ "2. SSH keys have not been installed. "
  ++ "Please run ./ssh_key_copy.py to do so. You may need to change "
  ++ "the usernames in that script to match your own.".

(** Lines 130-134 *)
Fixpoint no_connection_msg (errors : list (string * Z * string))
         (slave msg : string) : string :=
  match errors with
  | [] => msg
  | (addr, port, err) :: rest =>
      let msg := msg ++ "Received '" ++ err ++ "' while connecting to " ++ addr
                     ++ " on port " ++ str_of_int port ++ "." in
      let msg := msg ++ "Check that SSH is enabled on " ++ slave in
      let msg := msg ++ str1 LF in
      no_connection_msg rest slave msg
  end.

(** The loop over the slaves; the first component lists the slaves a
    connection was attempted to, in order. *)
Fixpoint check_ssh (attempts : list (string * ssh_connect)) (w : world)
  : list string * outcome unit :=
  match attempts with
  | [] => ([], Returned tt w)
  | (slave, result) :: rest =>
      match result with
      | Connected =>
          let (contacted, o) := check_ssh rest w in (slave :: contacted, o)
      | AuthenticationException e =>
          ([slave], exit_with_msg (authentication_msg e slave) w)
      | NoValidConnectionsError errors =>
          ([slave], exit_with_msg (no_connection_msg errors slave EmptyString) w)
      | OtherFailure => ([slave], Raised SSHException w)
      end
  end.

(** ** [check_versions] and [check_slaves] as a whole *)





(** ** Further notions for the statements *)

(** The character [c] occurs in [s]. *)
Fixpoint has_char (c : ascii) (s : string) : bool :=
  match s with
  | EmptyString => false
  | String x s' => Ascii.eqb x c || has_char c s'
  end.

(** The members of the bucket of [k]; empty when the key is absent. *)
Definition bucket (k : string) (d : dict) : list string :=
  match getitem k d with
  | Some hosts => hosts
  | None => []
  end.

(** The bucket the Java (Hadoop) version of [slave] is recorded in, when
    its dialogue runs to the end. *)
Definition java_target (connect : string -> option shell) (slave : string)
  : option string :=
  match remote_versions connect slave with
  | Versions java_ver _ => Some (target_bucket java_ver)
  | _ => None
  end.

Definition hadoop_target (connect : string -> option shell) (slave : string)
  : option string :=
  match remote_versions connect slave with
  | Versions _ hadoop_ver => Some (target_bucket hadoop_ver)
  | _ => None
  end.

Definition aims_at (target : option string) (k : string) : bool :=
  match target with
  | Some t => String.eqb t k
  | None => false
  end.

(** The slaves whose Java (Hadoop) version belongs in the bucket [k]. *)
Definition java_members (connect : string -> option shell)
           (slaves : list string) (k : string) : list string :=
  filter (fun s => aims_at (java_target connect s) k) slaves.

Definition hadoop_members (connect : string -> option shell)
           (slaves : list string) (k : string) : list string :=
  filter (fun s => aims_at (hadoop_target connect s) k) slaves.

(** The host a thread has still to add to the bucket [k], if any. *)
Definition java_owed_to (connect : string -> option shell) (k : string)
           (t : thread) : list string :=
  match t with
  | Probing s => if aims_at (java_target connect s) k then [s] else []
  | AddJava s j _ => if String.eqb (target_bucket j) k then [s] else []
  | _ => []
  end.

Definition hadoop_owed_to (connect : string -> option shell) (k : string)
           (t : thread) : list string :=
  match t with
  | Probing s => if aims_at (hadoop_target connect s) k then [s] else []
  | AddJava s _ h => if String.eqb (target_bucket h) k then [s] else []
  | AddHadoop s h => if String.eqb (target_bucket h) k then [s] else []
  | _ => []
  end.


(** What holds of the bucket [k] all along a run started from [jv0], [hv0]
    with the hosts [xj], [xh] owed to it. *)
Definition tracked (connect : string -> option shell) (k : string)
           (jv0 hv0 : dict) (xj xh : list string) (st : inventory) : Prop :=
  contains "none" (java_vers st) = true /\
  contains "none" (hadoop_vers st) = true /\
  Permutation (bucket k (java_vers st)
               ++ flat_map (java_owed_to connect k) (threads st)) xj /\
  Permutation (bucket k (hadoop_vers st)
               ++ flat_map (hadoop_owed_to connect k) (threads st)) xh /\
  (contains k (java_vers st) = true ->
   contains k jv0 = true \/ bucket k (java_vers st) <> []) /\
  (contains k (hadoop_vers st) = true ->
   contains k hv0 = true \/ bucket k (hadoop_vers st) <> []) /\
  (contains k jv0 = true -> contains k (java_vers st) = true) /\
  (contains k hv0 = true -> contains k (hadoop_vers st) = true).

(** How line 87-92 file a ping output. *)
Definition ping_ok (stdout : string) : bool := is_substring success_msg stdout.

Definition ping_unknown (stdout : string) : bool :=
  negb (ping_ok stdout) && is_substring "unknown host" stdout.

Definition ping_failed (stdout : string) : bool :=
  negb (ping_ok stdout) && negb (is_substring "unknown host" stdout).

(** The slaves of [pinged] whose output satisfies [f], in order. *)
Definition slaves_with (f : string -> bool) (pinged : list (string * string))
  : list string :=
  map fst (filter (fun entry => f (snd entry)) pinged).

(** What [check_ssh] does at a slave whose connection is not made. *)
Definition ssh_failure (slave : string) (result : ssh_connect) (w : world)
  : outcome unit :=
  match result with
  | Connected => Returned tt w
  | AuthenticationException e => exit_with_msg (authentication_msg e slave) w
  | NoValidConnectionsError errors =>
      exit_with_msg (no_connection_msg errors slave EmptyString) w
  | OtherFailure => Raised SSHException w
  end.



(** ** The monitor over time

    The server is a plain [HTTPServer]: requests are handled one after the
    other.  A [Timer] started by [monitor] calls [monitor] again one second
    later, in a thread of its own, whatever has been posted meanwhile; the
    model lets a pending timer fire between two requests. *)

Module MonitorRuns.

(** The requests (path, client address) handled in order: the flag after
    the last one and the events of each. *)
Fixpoint handle (requests : list (string * string)) (monitoring_active : bool)
  : bool * list (list Monitor.event) :=
  match requests with
  | [] => (monitoring_active, [])
  | (path, client_address) :: rest =>
      let (flag, events) := Monitor.do_POST path client_address monitoring_active in
      let (flag', later) := handle rest flag in
      (flag', events :: later)
  end.

Definition timers_started (events : list Monitor.event) : nat :=
  List.length (filter (fun e => match e with
                                | Monitor.StartTimer _ => true
                                | _ => false
                                end) events).

Definition pushes (events : list Monitor.event) : nat :=
  List.length (filter (fun e => match e with
                                | Monitor.PushStats _ => true
                                | _ => false
                                end) events).

Inductive input : Type :=
| Post (path client_address : string)
| Tick (main_server : string).        (* a pending timer fires *)

Record server : Type := mkServer {
  monitoring_active : bool;
  timers : nat                        (* timers started and not yet fired *)
}.

Definition react (i : input) (s : server) : server * list Monitor.event :=
  match i with
  | Post path client_address =>
      let (flag, events) :=
        Monitor.do_POST path client_address (monitoring_active s) in
      (mkServer flag (timers s + timers_started events), events)
  | Tick main_server =>
      match timers s with
      | O => (s, [])
      | S n =>
          let events := Monitor.monitor (monitoring_active s) main_server in
          (mkServer (monitoring_active s) (n + timers_started events), events)
      end
  end.

Fixpoint run (inputs : list input) (s : server) : server * list Monitor.event :=
  match inputs with
  | [] => (s, [])
  | i :: rest =>
      let (s1, events) := react i s in
      let (s2, later) := run rest s1 in
      (s2, events ++ later)%list
  end.

(** [k] times start then stop, without a tick in between. *)
Fixpoint restarts (k : nat) (client_address : string) : list input :=
  match k with
  | O => []
  | S k' =>
      Post "/start-monitoring" client_address
      :: Post "/end-monitoring" client_address
      :: restarts k' client_address
  end.

End MonitorRuns.

(* ================================================================== *)
(** * Properties *)
(* ================================================================== *)

(** ** Strings *)

Lemma append_empty_r (s : string) : s ++ EmptyString = s.
Proof. induction s as [|c s IH]; simpl; [reflexivity | now rewrite IH]. Qed.

Lemma append_assoc (a b c : string) : (a ++ b) ++ c = a ++ (b ++ c).
Proof. induction a as [|x a IH]; simpl; [reflexivity | now rewrite IH]. Qed.

Lemma length_append (a b : string) :
  String.length (a ++ b) = String.length a + String.length b.
Proof. induction a as [|x a IH]; simpl; [reflexivity | now rewrite IH]. Qed.

Lemma append_eq_empty (a b : string) :
  a ++ b = EmptyString -> a = EmptyString /\ b = EmptyString.
Proof. destruct a; simpl; [auto | discriminate]. Qed.

Lemma append_cancel_l (a b c : string) : a ++ b = a ++ c -> b = c.
Proof.
  induction a as [|x a IH]; simpl; intros H; [exact H |].
  injection H as H. auto.
Qed.

(** Two splittings of one text at prefixes of equal length coincide. *)
Lemma append_same_length (a b c d : string) :
  a ++ b = c ++ d -> String.length a = String.length c -> a = c /\ b = d.
Proof.
  revert c; induction a as [|x a IH]; intros [|y c]; simpl; intros H L;
    try discriminate; [auto |].
  injection H as -> H. injection L as L.
  destruct (IH _ H L) as [-> ->]. auto.
Qed.

Lemma append_cancel_r (a b c : string) : a ++ c = b ++ c -> a = b.
Proof.
  intros H. apply (append_same_length a c b c H).
  apply (f_equal String.length) in H. rewrite !length_append in H. lia.
Qed.

Lemma no_newline_append (a b : string) :
  no_newline (a ++ b) = no_newline a && no_newline b.
Proof.
  induction a as [|x a IH]; simpl; [reflexivity |].
  now rewrite IH, andb_assoc.
Qed.

(** A line is delimited in only one way: a newline-free run followed by the
    end of the text or a line feed. *)
Lemma line_unique (w1 w2 r1 r2 : string) :
  w1 ++ r1 = w2 ++ r2 ->
  no_newline w1 = true -> no_newline w2 = true ->
  at_eol r1 = true -> at_eol r2 = true ->
  w1 = w2 /\ r1 = r2.
Proof.
  revert w2; induction w1 as [|x w1 IH]; intros [|y w2]; simpl;
    intros H N1 N2 E1 E2.
  - auto.
  - subst r1. simpl in E1. apply andb_prop in N2 as [N2 _].
    rewrite E1 in N2. discriminate.
  - subst r2. simpl in E2. apply andb_prop in N1 as [N1 _].
    rewrite E2 in N1. discriminate.
  - injection H as -> H.
    apply andb_prop in N1 as [_ N1]. apply andb_prop in N2 as [_ N2].
    destruct (IH _ H N1 N2 E1 E2) as [-> ->]. auto.
Qed.

(** ** The matcher against the declarative reading *)

Lemma dot_star_sound k s : forall acc g r,
  dot_star k s acc = Some (g, r) ->
  exists w s2, s = w ++ s2 /\ no_newline w = true /\
               k s2 (acc ++ w) = Some (g, r).
Proof.
  induction s as [|c s IH]; simpl; intros acc g r H.
  - exists EmptyString, EmptyString. rewrite (append_empty_r acc). simpl. auto.
  - destruct (Ascii.eqb c LF) eqn:Ec.
    + exists EmptyString, (String c s). rewrite (append_empty_r acc). simpl. auto.
    + destruct (dot_star k s (acc ++ str1 c)) as [[g1 r1]|] eqn:Ed.
      * injection H as -> ->.
        destruct (IH _ _ _ Ed) as (w & s2 & -> & Nw & Hk).
        exists (String c w), s2. simpl. rewrite Ec. repeat split; auto.
        rewrite append_assoc in Hk. exact Hk.
      * exists EmptyString, (String c s). rewrite (append_empty_r acc). simpl. auto.
Qed.

Lemma dot_star_keeps k s acc :
  k s acc <> None -> dot_star k s acc <> None.
Proof.
  destruct s as [|c s]; simpl; [auto |].
  destruct (Ascii.eqb c LF); [auto |].
  destruct (dot_star k s (acc ++ str1 c)); [discriminate | auto].
Qed.

Lemma dot_star_complete k w : forall s2 acc,
  no_newline w = true -> k s2 (acc ++ w) <> None ->
  dot_star k (w ++ s2) acc <> None.
Proof.
  induction w as [|c w IH]; simpl; intros s2 acc N H.
  - rewrite append_empty_r in H. now apply dot_star_keeps.
  - apply andb_prop in N as [Nc N]. apply negb_true_iff in Nc. rewrite Nc.
    specialize (IH s2 (acc ++ str1 c) N).
    rewrite append_assoc in IH. specialize (IH H).
    destruct (dot_star k (w ++ s2) (acc ++ str1 c)); [discriminate | contradiction].
Qed.

Lemma match_here_sound p : forall s g g' r,
  match_here p s g = Some (g', r) -> matches p s g g' r.
Proof.
  induction p as [|[c| |] p IH]; simpl; intros s g g' r H.
  - injection H as -> ->. constructor.
  - destruct s as [|c' s]; [discriminate |].
    destruct (Ascii.eqb_spec c c') as [->|]; [| discriminate].
    constructor. auto.
  - apply dot_star_sound in H as (w & s2 & -> & Nw & Hk).
    constructor; auto.
  - destruct (at_eol s) eqn:E; [| discriminate]. constructor; auto.
Qed.

Lemma match_here_complete p s g g' r :
  matches p s g g' r -> match_here p s g <> None.
Proof.
  induction 1; simpl.
  - discriminate.
  - now rewrite Ascii.eqb_refl.
  - apply dot_star_complete; auto.
  - now rewrite H.
Qed.

(** ** The two patterns capture one group per position *)

Ltac invert_matches :=
  repeat match goal with
    | H : matches (_ :: _) _ _ _ _ |- _ => inversion H; subst; clear H
    | H : matches [] _ _ _ _ |- _ => inversion H; subst; clear H
    end.

Lemma hadoop_match_shape s g0 g r :
  matches hadoop_re s g0 g r <->
  s = "Hadoop " ++ g ++ r /\ no_newline g = true /\ at_eol r = true.
Proof.
  split.
  - intros H. unfold hadoop_re in H. simpl in H. invert_matches. auto.
  - intros (-> & N & E). unfold hadoop_re. simpl.
    repeat constructor; auto.
Qed.

Lemma java_match_shape s g0 g r :
  matches java_re s g0 g r <->
  s = "version " ++ String DQUOTE (g ++ String DQUOTE r) /\
  no_newline g = true /\ at_eol r = true.
Proof.
  split.
  - intros H. unfold java_re in H. simpl in H. invert_matches. auto.
  - intros (-> & N & E). unfold java_re. simpl.
    repeat constructor; auto.
Qed.

Lemma hadoop_re_functional : functional hadoop_re.
Proof.
  intros s g0 g1 r1 g2 r2 H1 H2.
  apply hadoop_match_shape in H1 as (E1 & N1 & L1).
  apply hadoop_match_shape in H2 as (E2 & N2 & L2).
  rewrite E1 in E2. apply append_cancel_l in E2.
  now destruct (line_unique _ _ _ _ E2 N1 N2 L1 L2).
Qed.

Lemma java_re_functional : functional java_re.
Proof.
  intros s g0 g1 r1 g2 r2 H1 H2.
  apply java_match_shape in H1 as (E1 & N1 & L1).
  apply java_match_shape in H2 as (E2 & N2 & L2).
  rewrite E1 in E2. apply append_cancel_l in E2. injection E2 as E2.
  change (g1 ++ str1 DQUOTE ++ r1 = g2 ++ str1 DQUOTE ++ r2) in E2.
  rewrite <- !append_assoc in E2.
  assert (Q : forall g, no_newline g = true -> no_newline (g ++ str1 DQUOTE) = true)
    by (intros g Hg; rewrite no_newline_append, Hg; reflexivity).
  destruct (line_unique _ _ _ _ E2 (Q _ N1) (Q _ N2) L1 L2) as [E _].
  now apply append_cancel_r in E.
Qed.

(** ** [findall] starts with the group of the leftmost match *)

Lemma occurs_here p s g :
  occurs p s EmptyString g <-> exists r, matches p s EmptyString g r.
Proof.
  split.
  - intros (s' & r & E & M). simpl in E. subst. eauto.
  - intros (r & M). exists s, r. auto.
Qed.

Lemma occurs_later p c s pre g :
  occurs p (String c s) (String c pre) g <-> occurs p s pre g.
Proof.
  split; intros (s' & r & E & M); exists s', r; split; auto; simpl in *.
  - now injection E.
  - now rewrite E.
Qed.

Lemma occurs_prefix p c s pre g :
  occurs p (String c s) pre g ->
  pre = EmptyString \/ exists pre', pre = String c pre'.
Proof.
  intros (s' & r & E & _). destruct pre as [|c' pre]; [auto | right].
  simpl in E. injection E as -> _. eauto.
Qed.

Lemma findall_first p : forall s,
  (exists g gs, findall p s = g :: gs /\ first_match p s g) \/
  (findall p s = [] /\ no_match p s).
Proof.
  unfold findall.
  induction s as [|c s IH]; simpl;
    destruct (match_here p _ EmptyString) as [[g r]|] eqn:Em.
  - left. exists g, []. split; [reflexivity |].
    exists EmptyString. split; [| simpl; lia].
    apply occurs_here. eauto using match_here_sound.
  - right. split; [reflexivity |]. intros pre g (s' & r & E & M).
    symmetry in E. apply append_eq_empty in E as [-> ->].
    apply match_here_complete in M. contradiction.
  - left. eexists g, _. split; [reflexivity |].
    exists EmptyString. split; [| simpl; lia].
    apply occurs_here. eauto using match_here_sound.
  - assert (Hno : forall g, ~ occurs p (String c s) EmptyString g).
    { intros g Ho. apply occurs_here in Ho as (r & M).
      apply match_here_complete in M. contradiction. }
    destruct IH as [(g & gs & E & pre & Ho & Hmin) | (E & Hn)].
    + left. exists g, gs. split; [exact E |].
      exists (String c pre). split; [now apply occurs_later |].
      intros pre' g' Ho'. destruct (occurs_prefix _ _ _ _ _ Ho') as [-> | (q & ->)].
      * exfalso. eapply Hno; eauto.
      * apply occurs_later in Ho'. apply Hmin in Ho'. simpl. lia.
    + right. split; [exact E |].
      intros pre g Ho. destruct (occurs_prefix _ _ _ _ _ Ho) as [-> | (q & ->)].
      * eapply Hno; eauto.
      * apply occurs_later in Ho. eapply Hn; eauto.
Qed.

Lemma first_match_unique p text g1 g2 :
  functional p -> first_match p text g1 -> first_match p text g2 -> g1 = g2.
Proof.
  intros F (pre1 & Ho1 & Hm1) (pre2 & Ho2 & Hm2).
  pose proof (Hm1 _ _ Ho2) as L1. pose proof (Hm2 _ _ Ho1) as L2.
  destruct Ho1 as (s1 & r1 & E1 & M1), Ho2 as (s2 & r2 & E2 & M2).
  rewrite E1 in E2.
  destruct (append_same_length _ _ _ _ E2) as [_ <-]; [lia |].
  eapply F; eauto.
Qed.

Lemma first_match_not_no_match p text g :
  first_match p text g -> ~ no_match p text.
Proof. intros (pre & Ho & _) Hn. eapply Hn; eauto. Qed.

Lemma probe_spec_of_findall p probe :
  functional p ->
  (forall output, probe output = match findall p output with
                                 | v :: _ => v
                                 | [] => EmptyString
                                 end) ->
  forall output, probe_spec p probe output.
Proof.
  intros F Hp output. unfold probe_spec. rewrite (Hp output).
  destruct (findall_first p output) as [(g & gs & E & Hf) | (E & Hn)];
    rewrite E; split.
  - left. eauto.
  - intros g' Hf'. eapply first_match_unique; eauto.
  - right. auto.
  - intros g' Hf'. exfalso. eapply first_match_not_no_match; eauto.
Qed.

Lemma java_probe_spec output : probe_spec java_re get_java_version output.
Proof.
  apply probe_spec_of_findall; [exact java_re_functional | reflexivity].
Qed.

Lemma hadoop_probe_spec output :
  probe_spec hadoop_re get_hadoop_version output.
Proof.
  apply probe_spec_of_findall; [exact hadoop_re_functional | reflexivity].
Qed.

(** C3. Each version probe is a total function of the text: it returns the
    group captured by the leftmost match of its pattern when there is a
    match (and that group is unique), and the failure value when there is
    none.  On the text made of the line Hadoop 2.7.3 followed by a second
    line, the Hadoop probe returns 2.7.3. *)
Theorem probes_return_first_match :
  (forall output,
      probe_spec java_re get_java_version output /\
      probe_spec hadoop_re get_hadoop_version output) /\
  get_hadoop_version ("Hadoop 2.7.3" ++ str1 LF ++ "Some other line") = "2.7.3".
Proof.
  split; [| reflexivity].
  intros output. split; [apply java_probe_spec | apply hadoop_probe_spec].
Qed.




(** ** [sorted]: a sorted rearrangement, and the only one *)

Lemma compare_not_gt_trans : forall a b c,
  String.compare a b <> Gt -> String.compare b c <> Gt ->
  String.compare a c <> Gt.
Proof.
  induction a as [|x a IH]; intros [|y b] [|z c]; simpl; try congruence.
  unfold Ascii.compare.
  destruct (N.compare_spec (N_of_ascii x) (N_of_ascii y)) as [E1|L1|G1];
    destruct (N.compare_spec (N_of_ascii y) (N_of_ascii z)) as [E2|L2|G2];
    try congruence; intros H1 H2.
  - rewrite E1, E2, N.compare_refl. eauto.
  - rewrite E1. apply N.compare_lt_iff in L2. rewrite L2. discriminate.
  - rewrite <- E2. apply N.compare_lt_iff in L1. rewrite L1. discriminate.
  - assert (L : (N_of_ascii x < N_of_ascii z)%N) by lia.
    apply N.compare_lt_iff in L. rewrite L. discriminate.
Qed.

Lemma str_le_trans a b c : str_le a b -> str_le b c -> str_le a c.
Proof.
  unfold str_le, String.leb. intros H1 H2.
  pose proof (compare_not_gt_trans a b c) as T.
  destruct (String.compare a b); try discriminate;
    destruct (String.compare b c); try discriminate;
    destruct (String.compare a c); try reflexivity;
    exfalso; apply T; congruence.
Qed.

Lemma str_le_total a b : str_le a b \/ str_le b a.
Proof. apply String.leb_total. Qed.

Lemma insert_sorted_perm x l : Permutation (x :: l) (insert_sorted x l).
Proof.
  induction l as [|y l IH]; simpl; [reflexivity |].
  destruct (String.leb x y); [reflexivity |].
  rewrite perm_swap. now constructor.
Qed.

Lemma sorted_perm l : Permutation l (sorted l).
Proof.
  induction l as [|x l IH]; simpl; [constructor |].
  rewrite <- insert_sorted_perm. now constructor.
Qed.

Lemma insert_sorted_ordered x l :
  StronglySorted str_le l -> StronglySorted str_le (insert_sorted x l).
Proof.
  induction 1 as [|y l Hs IH Hy]; simpl; [repeat constructor |].
  destruct (String.leb x y) eqn:E.
  - constructor; [now constructor |].
    constructor; [exact E |].
    eapply Forall_impl; [| exact Hy]. intros z Hz. eapply str_le_trans; eauto.
  - constructor; [exact IH |].
    assert (Hyx : str_le y x).
    { destruct (str_le_total x y) as [H|H]; [unfold str_le in H; congruence | exact H]. }
    eapply Permutation_Forall; [apply insert_sorted_perm |].
    constructor; assumption.
Qed.

Lemma sorted_ordered l : StronglySorted str_le (sorted l).
Proof.
  induction l as [|x l IH]; simpl; [constructor |].
  now apply insert_sorted_ordered.
Qed.

Lemma ordered_perm_unique : forall l1 l2,
  StronglySorted str_le l1 -> StronglySorted str_le l2 ->
  Permutation l1 l2 -> l1 = l2.
Proof.
  induction l1 as [|x l1 IH]; intros l2 S1 S2 P.
  - apply Permutation_nil in P. now subst.
  - destruct l2 as [|y l2]; [apply Permutation_sym, Permutation_nil in P; discriminate |].
    inversion S1 as [|? ? S1' F1]; subst. inversion S2 as [|? ? S2' F2]; subst.
    assert (x = y) as ->.
    { apply String.leb_antisym.
      - assert (In y (x :: l1)) as [->|Hy]
            by (eapply Permutation_in; [symmetry; exact P | now left]).
        + destruct (str_le_total y y); assumption.
        + rewrite Forall_forall in F1. now apply F1.
      - assert (In x (y :: l2)) as [->|Hx]
            by (eapply Permutation_in; [exact P | now left]).
        + destruct (str_le_total x x); assumption.
        + rewrite Forall_forall in F2. now apply F2. }
    f_equal. apply IH; auto. eapply Permutation_cons_inv; eauto.
Qed.

(** The order in which a bucket was filled does not show after sorting. *)
Lemma sorted_of_perm l1 l2 : Permutation l1 l2 -> sorted l1 = sorted l2.
Proof.
  intros P. apply ordered_perm_unique; try apply sorted_ordered.
  rewrite <- !sorted_perm. exact P.
Qed.

Lemma sorted_eq_nil l : sorted l = [] <-> l = [].
Proof.
  split; [| now intros ->].
  intros E. pose proof (sorted_perm l) as P. rewrite E in P.
  now apply Permutation_sym, Permutation_nil in P.
Qed.

(** ** Dictionaries *)

Lemma getitem_setitem_same k v d : getitem k (setitem k v d) = Some v.
Proof.
  induction d as [|[k' v'] d IH]; simpl.
  - now rewrite String.eqb_refl.
  - destruct (String.eqb k k') eqn:E; simpl.
    + now rewrite String.eqb_refl.
    + now rewrite E.
Qed.

Lemma getitem_setitem_other k k' v d :
  k' <> k -> getitem k' (setitem k v d) = getitem k' d.
Proof.
  intros N. induction d as [|[k0 v0] d IH]; simpl.
  - apply String.eqb_neq in N. now rewrite N.
  - destruct (String.eqb_spec k k0) as [->|]; simpl.
    + apply String.eqb_neq in N. now rewrite N.
    + now rewrite IH.
Qed.

Lemma getitem_none_iff k d : getitem k d = None <-> ~ In k (keys d).
Proof.
  induction d as [|[k' v] d IH]; simpl; [tauto |].
  destruct (String.eqb_spec k k') as [->|N].
  - split; [discriminate | tauto].
  - rewrite IH. split; [intros H [E|I]; auto | tauto].
Qed.

Lemma contains_false_iff k d : contains k d = false <-> getitem k d = None.
Proof. unfold contains. destruct (getitem k d); split; congruence. Qed.

Lemma contains_true_iff k d :
  contains k d = true <-> exists v, getitem k d = Some v.
Proof.
  unfold contains. destruct (getitem k d); split; eauto; try discriminate.
  intros [? ?]. discriminate.
Qed.

Lemma delitem_none_iff k d : delitem k d = None <-> getitem k d = None.
Proof.
  induction d as [|[k' v] d IH]; simpl; [tauto |].
  destruct (String.eqb k k'); [split; discriminate |].
  destruct (delitem k d); rewrite <- IH; split; congruence.
Qed.

(** On a well-formed dictionary [del d[k]] drops the entry of [k] and keeps
    the others in place. *)
Lemma delitem_filter k d d' :
  well_formed d -> delitem k d = Some d' ->
  d' = filter (fun kv => negb (String.eqb k (fst kv))) d.
Proof.
  unfold well_formed. revert d'.
  induction d as [|[k' v] d IH]; simpl; intros d' W H; [discriminate |].
  inversion W as [|? ? Hk W']; subst.
  destruct (String.eqb_spec k k') as [->|N]; simpl.
  - injection H as <-. symmetry. apply forallb_filter_id.
    apply forallb_forall. intros [k0 v0] I. simpl.
    apply negb_true_iff, String.eqb_neq. intros ->.
    apply Hk. change k0 with (fst (k0, v0)). now apply in_map.
  - destruct (delitem k d) as [d''|]; [| discriminate].
    injection H as <-. f_equal. now apply IH.
Qed.

Lemma getitem_delitem_other k k' d d' :
  delitem k d = Some d' -> k' <> k -> getitem k' d' = getitem k' d.
Proof.
  revert d'. induction d as [|[k0 v] d IH]; simpl; intros d' H N; [discriminate |].
  destruct (String.eqb_spec k k0) as [->|N0].
  - injection H as <-. apply String.eqb_neq in N. now rewrite N.
  - destruct (delitem k d) as [d''|]; [| discriminate].
    injection H as <-. simpl. now rewrite (IH d'').
Qed.

Lemma getitem_delitem_same k d d' :
  well_formed d -> delitem k d = Some d' -> getitem k d' = None.
Proof.
  intros W H. rewrite (delitem_filter _ _ _ W H).
  apply getitem_none_iff. unfold keys. rewrite in_map_iff.
  intros ([k0 v] & E & I). simpl in E. subst k0.
  apply filter_In in I as [_ I]. simpl in I.
  now rewrite String.eqb_refl in I.
Qed.



Lemma well_formed_delitem k d d' :
  well_formed d -> delitem k d = Some d' -> well_formed d'.
Proof.
  intros W H. rewrite (delitem_filter _ _ _ W H).
  unfold well_formed, keys in *. clear H.
  induction d as [|[k' v] d IH]; simpl; [constructor |].
  inversion W as [|? ? Hk W']; subst.
  destruct (negb (String.eqb k k')); simpl; [| auto].
  constructor; [| auto].
  intros I. apply Hk. apply in_map_iff in I as (kv & E & I).
  apply filter_In in I as [I _]. apply in_map_iff. eauto.
Qed.

Lemma total_entries_setitem k v d :
  total_entries (setitem k v d) + List.length (match getitem k d with
                                               | Some old => old
                                               | None => []
                                               end)
  = total_entries d + List.length v.
Proof.
  unfold total_entries. induction d as [|[k' v'] d IH]; simpl; [lia |].
  destruct (String.eqb k k'); simpl; lia.
Qed.

(** ** [add_to_dict] *)

Lemma add_to_dict_effect version host dic :
  contains "none" dic = true ->
  add_to_dict version host dic =
  Some (setitem (target_bucket version)
                (match getitem (target_bucket version) dic with
                 | Some hosts => hosts ++ [host]
                 | None => [host]
                 end)%list dic).
Proof.
  intros Hn. unfold add_to_dict, target_bucket.
  destruct (String.eqb version EmptyString).
  - apply contains_true_iff in Hn as [hosts Hn]. now rewrite Hn.
  - unfold contains. now destruct (getitem version dic).
Qed.

(** C9. On a dictionary with a none key, [add_to_dict] succeeds and appends
    the host to exactly one bucket: the none bucket when the version is the
    empty string, otherwise the bucket named by the version, which is
    created with the host as its only member when it was absent.  Every
    other key keeps its bucket, or stays absent. *)
Theorem add_to_dict_appends_to_one_bucket (version host : string) (dic : dict)
  (Hnone : contains "none" dic = true) :
  exists dic',
    add_to_dict version host dic = Some dic' /\
    getitem (target_bucket version) dic' =
      Some (match getitem (target_bucket version) dic with
            | Some hosts => hosts ++ [host]
            | None => [host]
            end)%list /\
    (forall k, k <> target_bucket version -> getitem k dic' = getitem k dic).
Proof.
  eexists. split; [now apply add_to_dict_effect |]. split.
  - apply getitem_setitem_same.
  - intros k N. now apply getitem_setitem_other.
Qed.

Lemma add_to_dict_appends_to_one_bucket_witness :
  contains "none" [("none", [])] = true /\
  exists dic',
    add_to_dict "8" "w1" [("none", [])] = Some dic' /\
    getitem (target_bucket "8") dic' =
      Some (match getitem (target_bucket "8") [("none", [])] with
            | Some hosts => hosts ++ ["w1"]
            | None => ["w1"]
            end)%list /\
    (forall k, k <> target_bucket "8" ->
               getitem k dic' = getitem k [("none", [])]).
Proof.
  split; [reflexivity |].
  apply (add_to_dict_appends_to_one_bucket "8" "w1" [("none", [])]).
  reflexivity.
Defined.

(** ** [write_to_file] *)

Lemma read_set_file path content fs :
  read_file path (set_file path content fs) = Some content.
Proof.
  induction fs as [|[p c] fs IH]; simpl.
  - now rewrite String.eqb_refl.
  - destruct (String.eqb path p) eqn:E; simpl.
    + now rewrite String.eqb_refl.
    + now rewrite E.
Qed.

Lemma write_to_file_without_none cwd data filename w :
  contains "none" data = false ->
  write_to_file cwd data filename w = (data, Raised KeyError w).
Proof.
  intros H. apply contains_false_iff, delitem_none_iff in H.
  unfold write_to_file. now rewrite H.
Qed.

Lemma write_to_file_with_none cwd data filename w :
  contains "none" data = true ->
  exists data',
    delitem "none" data = Some data' /\
    write_to_file cwd data filename w =
      (data', Returned tt
                (write_file (path_join cwd filename) (render data')
                   (print ("Writing to " ++ path_join cwd filename) w))).
Proof.
  intros H. unfold write_to_file.
  destruct (delitem "none" data) as [data'|] eqn:E.
  - eauto.
  - apply delitem_none_iff, contains_false_iff in E. congruence.
Qed.

(** C10. [write_to_file] raises [KeyError] exactly when its dictionary has
    no none key, and then nothing was printed or written and no file was
    touched.  When the key is there the call returns, and the text written
    to the file is the rendering of the dictionary from which the none
    bucket has been removed (all other entries kept, in place). *)
Theorem write_to_file_keyerror_iff_no_none
  (cwd : string) (data : dict) (filename : string) (w : world)
  (Hwf : well_formed data) :
  ((exists w', snd (write_to_file cwd data filename w) = Raised KeyError w')
   <-> contains "none" data = false) /\
  (contains "none" data = false ->
   write_to_file cwd data filename w = (data, Raised KeyError w)) /\
  (contains "none" data = true ->
   exists data' w',
     write_to_file cwd data filename w = (data', Returned tt w') /\
     data' = filter (fun kv => negb (String.eqb "none" (fst kv))) data /\
     getitem "none" data' = None /\
     read_file (path_join cwd filename) (files w') = Some (render data')).
Proof.
  split; [| split].
  - split.
    + intros [w' H]. destruct (contains "none" data) eqn:E; [| reflexivity].
      destruct (write_to_file_with_none cwd data filename w E) as (d' & _ & Hw).
      rewrite Hw in H. discriminate.
    + intros E. rewrite write_to_file_without_none by exact E. simpl. eauto.
  - apply write_to_file_without_none.
  - intros E.
    destruct (write_to_file_with_none cwd data filename w E) as (d' & Hd & Hw).
    exists d'. eexists. split; [exact Hw |]. split; [| split].
    + now apply delitem_filter.
    + eapply getitem_delitem_same; eauto.
    + simpl. apply read_set_file.
Qed.

Lemma write_to_file_keyerror_iff_no_none_witness :
  well_formed [("8", ["m"; "w1"]); ("none", [])] /\
  (contains "none" [("8", ["m"; "w1"]); ("none", [])] = true ->
   exists data' w',
     write_to_file "/home/hduser" [("8", ["m"; "w1"]); ("none", [])]
                   "java_ver.txt" (mkWorld EmptyString []) =
       (data', Returned tt w') /\
     data' = filter (fun kv => negb (String.eqb "none" (fst kv)))
                    [("8", ["m"; "w1"]); ("none", [])] /\
     getitem "none" data' = None /\
     read_file (path_join "/home/hduser" "java_ver.txt") (files w') =
       Some (render data')).
Proof.
  assert (W : well_formed [("8", ["m"; "w1"]); ("none", [])]).
  { unfold well_formed. simpl. repeat constructor; simpl; intuition discriminate. }
  split; [exact W |].
  apply (write_to_file_keyerror_iff_no_none
           "/home/hduser" [("8", ["m"; "w1"]); ("none", [])] "java_ver.txt"
           (mkWorld EmptyString []) W).
Defined.

(** ** Reconciliation *)

Lemma check_none_spec prefix sep vers hosts w :
  getitem "none" vers = Some hosts ->
  (hosts = [] -> check_none prefix sep vers w = Returned tt w) /\
  (hosts <> [] ->
   exists listed,
     check_none prefix sep vers w =
       Exited 1 (print (prefix ++ join sep listed) w) /\
     StronglySorted str_le listed /\ Permutation listed hosts).
Proof.
  intros H. unfold check_none. rewrite H. split.
  - now intros ->.
  - intros N. exists (sorted hosts). split; [| split].
    + destruct hosts; [contradiction | reflexivity].
    + apply sorted_ordered.
    + symmetry. apply sorted_perm.
Qed.

(** C1. For a version map whose none bucket is [hosts], each of the two
    reconciliation checks returns normally when [hosts] is empty and
    otherwise ends the run with exit code 1 after printing its message: the
    fixed prefix followed by the hosts of the bucket joined by the
    separator, in ascending order, each entry of the bucket listed once. *)
Theorem reconcile_fails_iff_none_bucket_nonempty
  (vers : dict) (hosts : list string) (w : world)
  (Hnone : getitem "none" vers = Some hosts) :
  ((exists code w', check_java_none vers w = Exited code w' /\ code <> 0%Z)
   <-> hosts <> []) /\
  ((exists code w', check_hadoop_none vers w = Exited code w' /\ code <> 0%Z)
   <-> hosts <> []) /\
  (hosts = [] ->
   check_java_none vers w = Returned tt w /\
   check_hadoop_none vers w = Returned tt w) /\
  (hosts <> [] ->
   exists listed,
     StronglySorted str_le listed /\ Permutation listed hosts /\
     check_java_none vers w =
       Exited 1 (print (java_none_prefix ++ join "," listed) w) /\
     check_hadoop_none vers w =
       Exited 1 (print (hadoop_none_prefix ++ join ", " listed) w)).
Proof.
  destruct (check_none_spec java_none_prefix "," vers hosts w Hnone) as [J0 J1].
  destruct (check_none_spec hadoop_none_prefix ", " vers hosts w Hnone) as [H0 H1].
  fold (check_java_none vers w) in J0, J1.
  fold (check_hadoop_none vers w) in H0, H1.
  assert (D : hosts = [] \/ hosts <> [])
    by (destruct hosts; [now left | right; discriminate]).
  repeat split.
  - intros (c & w' & E & _) ->. rewrite J0 in E by reflexivity. discriminate.
  - intros N. destruct (J1 N) as (l & E & _). rewrite E.
    do 2 eexists. split; [reflexivity | discriminate].
  - intros (c & w' & E & _) ->. rewrite H0 in E by reflexivity. discriminate.
  - intros N. destruct (H1 N) as (l & E & _). rewrite E.
    do 2 eexists. split; [reflexivity | discriminate].
  - auto.
  - auto.
  - intros N. destruct (J1 N) as (l & Ej & S & P).
    destruct (H1 N) as (l' & Eh & S' & P').
    assert (l' = l) as ->.
    { apply ordered_perm_unique; auto. now rewrite P, P'. }
    exists l. auto.
Qed.

Lemma reconcile_fails_iff_none_bucket_nonempty_witness :
  getitem "none" [("8", ["m"]); ("none", ["w2"; "w1"])] = Some ["w2"; "w1"] /\
  check_java_none [("8", ["m"]); ("none", ["w2"; "w1"])] (mkWorld EmptyString [])
  = Exited 1 (print (java_none_prefix ++ "w1,w2") (mkWorld EmptyString [])) /\
  ((exists code w',
       check_hadoop_none [("8", ["m"]); ("none", ["w2"; "w1"])]
                         (mkWorld EmptyString []) = Exited code w' /\
       code <> 0%Z)
   <-> ["w2"; "w1"] <> []).
Proof.
  split; [reflexivity |]. split; [reflexivity |].
  apply (reconcile_fails_iff_none_bucket_nonempty
           [("8", ["m"]); ("none", ["w2"; "w1"])] ["w2"; "w1"]
           (mkWorld EmptyString []) eq_refl).
Defined.

(** ** What reconciliation and report writing do to the maps *)

Lemma write_to_file_keeps_versions cwd data filename w k :
  k <> "none" ->
  getitem k (fst (write_to_file cwd data filename w)) = getitem k data.
Proof.
  intros N. unfold write_to_file.
  destruct (delitem "none" data) as [d'|] eqn:E; simpl; [| reflexivity].
  eapply getitem_delitem_other; eauto.
Qed.





(** ** [check_time_skew] *)

Lemma flagged_iff time_skew :
  flagged time_skew = true <-> (Z.abs time_skew >= time_threshold)%Z.
Proof.
  unfold flagged, report_skew.
  destruct (Z.geb_spec (Z.abs time_skew) time_threshold); simpl;
    split; intros; try lia; try discriminate; reflexivity.
Qed.

Lemma write_stdout_twice a b w :
  write_stdout b (write_stdout a w) = write_stdout (a ++ b) w.
Proof. unfold write_stdout. simpl. now rewrite append_assoc. Qed.

Lemma write_stdout_empty w : write_stdout EmptyString w = w.
Proof. destruct w. unfold write_stdout. simpl. now rewrite append_empty_r. Qed.

Lemma stdout_of_write s fs :
  stdout (write_stdout s (mkWorld EmptyString fs)) = s.
Proof. reflexivity. Qed.

Lemma report_skew_spec above w slave time_skew :
  report_skew above w slave time_skew =
  (above || flagged time_skew, write_stdout (skew_text slave time_skew) w).
Proof.
  unfold skew_text, flagged, report_skew, print.
  destruct (Z.abs time_skew >=? time_threshold)%Z; cbn [fst snd].
  - rewrite orb_true_r, !write_stdout_twice, stdout_of_write. reflexivity.
  - now rewrite orb_false_r, stdout_of_write.
Qed.

Lemma report_skews_spec measured : forall above w,
  report_skews above w measured =
  (above || existsb (fun m => flagged (snd m)) measured,
   write_stdout
     (join EmptyString (map (fun m => skew_text (fst m) (snd m)) measured)) w).
Proof.
  induction measured as [|[slave time_skew] rest IH]; intros above w.
  - simpl. now rewrite orb_false_r, write_stdout_empty.
  - cbn [report_skews]. rewrite report_skew_spec, IH, write_stdout_twice.
    cbn [existsb map fst snd]. rewrite orb_assoc. f_equal. f_equal.
    unfold join. destruct rest; simpl; [now rewrite append_empty_r | reflexivity].
Qed.

Lemma check_time_skew_spec which_clockdiff measured w :
  which_clockdiff <> EmptyString ->
  check_time_skew which_clockdiff measured w =
  let reported :=
    write_stdout
      (skew_heading
       ++ join EmptyString (map (fun m => skew_text (fst m) (snd m)) measured))
      w in
  if existsb (fun m => flagged (snd m)) measured
  then Exited 1 (print skew_failure_msg reported)
  else Returned tt
         (print ("The time difference between nodes in the cluster is fine."
                 ++ "You may start up hadoop using ./run_dfs.py.") reported).
Proof.
  intros N. apply String.eqb_neq in N.
  unfold check_time_skew. rewrite N, report_skews_spec. cbn [orb].
  set (ls := join EmptyString _).
  assert (E : write_stdout ls
                (print "------------------------"
                   (print (str1 LF ++ "Calculating time skew...") w))
              = write_stdout (skew_heading ++ ls) w).
  { unfold print. rewrite !write_stdout_twice. reflexivity. }
  rewrite E. reflexivity.
Qed.

(** C7. A slave is flagged exactly when the absolute value of its measured
    difference is at least 20000 ms, so 20000 and -20000 are flagged and
    19999 is not.  When clockdiff is installed, the report of every slave is
    written, in order, before the run ends, and the run ends with exit
    code 1 exactly when some slave was flagged. *)
Theorem skew_flagged_iff_at_least_threshold
  (which_clockdiff : string) (measured : list (string * Z)) (w : world)
  (Hclockdiff : which_clockdiff <> EmptyString) :
  (forall time_skew,
      flagged time_skew = true <-> (Z.abs time_skew >= 20000)%Z) /\
  flagged 20000 = true /\ flagged (-20000) = true /\ flagged 19999 = false /\
  (forall slave time_skew,
      skew_text slave time_skew =
      if flagged time_skew
      then "Host:" ++ str1 TAB ++ slave ++ str1 ESC ++ "[1;31m"
           ++ str1 TAB ++ "Difference:" ++ str1 TAB ++ str_of_int time_skew
           ++ "ms" ++ str1 LF ++ str1 ESC ++ "[0;0m"
      else "Host:" ++ str1 TAB ++ slave ++ str1 TAB ++ "Difference:"
           ++ str1 TAB ++ str_of_int time_skew ++ "ms" ++ str1 LF) /\
  (let reported :=
     write_stdout
       (skew_heading
        ++ join EmptyString (map (fun m => skew_text (fst m) (snd m)) measured))
       w in
   ((exists slave time_skew,
        In (slave, time_skew) measured /\ (Z.abs time_skew >= 20000)%Z) ->
    check_time_skew which_clockdiff measured w =
      Exited 1 (print skew_failure_msg reported)) /\
   ((forall slave time_skew,
        In (slave, time_skew) measured -> (Z.abs time_skew < 20000)%Z) ->
    exists w', check_time_skew which_clockdiff measured w = Returned tt w')).
Proof.
  split; [exact flagged_iff |].
  split; [reflexivity |]. split; [reflexivity |]. split; [reflexivity |].
  split.
  - intros slave time_skew. unfold skew_text, flagged, report_skew, print.
    destruct (Z.abs time_skew >=? time_threshold)%Z; simpl;
      rewrite ?append_assoc; simpl; rewrite ?append_assoc; reflexivity.
  - rewrite (check_time_skew_spec _ _ _ Hclockdiff). split.
    + intros (slave & time_skew & I & A).
      assert (E : existsb (fun m => flagged (snd m)) measured = true).
      { apply existsb_exists. exists (slave, time_skew). split; [exact I |].
        simpl. now apply flagged_iff. }
      now rewrite E.
    + intros A.
      assert (E : existsb (fun m => flagged (snd m)) measured = false).
      { destruct (existsb _ measured) eqn:E; [| reflexivity].
        apply existsb_exists in E as ([slave time_skew] & I & F).
        simpl in F. apply flagged_iff in F. apply A in I.
        unfold time_threshold in F. lia. }
      rewrite E. eauto.
Qed.

Lemma skew_flagged_iff_at_least_threshold_witness :
  "/usr/sbin/clockdiff" <> EmptyString /\
  check_time_skew "/usr/sbin/clockdiff" [("w1", 12%Z); ("w2", (-20000)%Z)]
                  (mkWorld EmptyString [])
  = Exited 1
      (print skew_failure_msg
         (write_stdout
            (skew_heading
             ++ join EmptyString
                  (map (fun m => skew_text (fst m) (snd m))
                       [("w1", 12%Z); ("w2", (-20000)%Z)]))
            (mkWorld EmptyString []))).
Proof.
  assert (N : "/usr/sbin/clockdiff" <> EmptyString) by discriminate.
  split; [exact N |].
  destruct (skew_flagged_iff_at_least_threshold
              "/usr/sbin/clockdiff" [("w1", 12%Z); ("w2", (-20000)%Z)]
              (mkWorld EmptyString []) N) as (_ & _ & _ & _ & _ & H & _).
  apply H. exists "w2", (-20000)%Z. split; [simpl; auto | simpl; lia].
Defined.

(** ** The POST handler of the monitor *)

Lemma unknown_path path :
  ~ In path Monitor.paths -> existsb (String.eqb path) Monitor.paths = false.
Proof.
  intros N. destruct (existsb _ _) eqn:E; [| reflexivity].
  apply existsb_exists in E as (p & I & E).
  apply String.eqb_eq in E. subst. contradiction.
Qed.

(** C8. A POST to /start-monitoring while monitoring is active is turned
    down: the answer has status 405 and the body says that monitoring is
    already active, no timer is started, no statistics are pushed, and the
    flag stays set.  A POST to a path other than the two control paths is
    answered with status 404 and the body Path not found, whatever the flag,
    and the flag keeps its value. *)
Theorem start_while_active_conflicts_unknown_path_not_found
  (path client_address : string) (monitoring_active : bool)
  (Hpath : ~ In path Monitor.paths) :
  Monitor.do_POST "/start-monitoring" client_address true =
    (true,
     [Monitor.SendResponse 405;
      Monitor.SendHeader "Content-type" "text/html";
      Monitor.EndHeaders;
      Monitor.WriteBody ("Monitoring is already active" ++ str1 LF)]) /\
  Monitor.status (snd (Monitor.do_POST "/start-monitoring" client_address true))
    = Some 405%Z /\
  Monitor.do_POST path client_address monitoring_active =
    (monitoring_active,
     [Monitor.SendResponse 404;
      Monitor.SendHeader "Content-type" "text/html";
      Monitor.EndHeaders;
      Monitor.WriteBody ("Path not found" ++ str1 LF)]) /\
  Monitor.status (snd (Monitor.do_POST path client_address monitoring_active))
    = Some 404%Z.
Proof.
  split; [reflexivity |]. split; [reflexivity |].
  unfold Monitor.do_POST. rewrite (unknown_path _ Hpath). simpl.
  split; reflexivity.
Qed.

Lemma start_while_active_conflicts_unknown_path_not_found_witness :
  ~ In "/push-stats" Monitor.paths /\
  Monitor.status (snd (Monitor.do_POST "/push-stats" "10.0.0.1" false))
  = Some 404%Z.
Proof.
  assert (N : ~ In "/push-stats" Monitor.paths)
    by (simpl; intuition discriminate).
  split; [exact N |].
  apply (start_while_active_conflicts_unknown_path_not_found
           "/push-stats" "10.0.0.1" false N).
Defined.

(** ** The threads of the inventory *)

Lemma add_to_dict_total version host dic dic' :
  contains "none" dic = true ->
  add_to_dict version host dic = Some dic' ->
  total_entries dic' = total_entries dic + 1 /\ contains "none" dic' = true.
Proof.
  intros Hn H. rewrite (add_to_dict_effect _ _ _ Hn) in H. injection H as <-.
  split.
  - match goal with |- total_entries (setitem ?k ?v _) = _ =>
      pose proof (total_entries_setitem k v dic) as T end.
    destruct (getitem (target_bucket version) dic);
      simpl in T; rewrite ?length_app in T; simpl in T; lia.
  - apply contains_true_iff.
    destruct (String.eqb_spec "none" (target_bucket version)) as [<-|N].
    + rewrite getitem_setitem_same. eauto.
    + rewrite getitem_setitem_other by exact N. now apply contains_true_iff.
Qed.

Lemma add_to_dict_succeeds version host dic :
  contains "none" dic = true -> add_to_dict version host dic <> None.
Proof. intros Hn. now rewrite (add_to_dict_effect _ _ _ Hn). Qed.

Lemma list_sum_replace_nth {A} (f : A -> nat) t t' : forall l i,
  nth_error l i = Some t ->
  list_sum (map f (replace_nth i t' l)) + f t = list_sum (map f l) + f t'.
Proof.
  induction l as [|x l IH]; intros [|i]; simpl; intros H; try discriminate.
  - injection H as ->. lia.
  - specialize (IH _ H). lia.
Qed.

Lemma in_replace_nth {A} (x t' : A) : forall l i,
  In x (replace_nth i t' l) -> x = t' \/ In x l.
Proof.
  induction l as [|y l IH]; intros [|i]; simpl; try tauto.
  - intros [<-|H]; auto.
  - intros [<-|H]; auto. destruct (IH _ H); auto.
Qed.

Section Threads.

Variable connect : string -> option shell.

Lemma thread_step_balance t jv hv t' jv' hv' :
  contains "none" jv = true -> contains "none" hv = true ->
  thread_step connect t jv hv = Some (t', jv', hv') ->
  contains "none" jv' = true /\ contains "none" hv' = true /\
  total_entries jv' + owed_java connect t' =
    total_entries jv + owed_java connect t /\
  total_entries hv' + owed_hadoop connect t' =
    total_entries hv + owed_hadoop connect t /\
  rank t' < rank t.
Proof.
  intros Cj Ch H. destruct t as [s|s j h|s h| |e]; simpl in H; try discriminate.
  - unfold owed_java, owed_hadoop, completes.
    destruct (remote_versions connect s); try discriminate;
      injection H as <- <- <-; simpl; repeat split; auto; lia.
  - destruct (add_to_dict j s jv) as [d|] eqn:E.
    + injection H as <- <- <-.
      destruct (add_to_dict_total _ _ _ _ Cj E) as [T C].
      simpl. repeat split; auto; lia.
    + exfalso. exact (add_to_dict_succeeds _ _ _ Cj E).
  - destruct (add_to_dict h s hv) as [d|] eqn:E.
    + injection H as <- <- <-.
      destruct (add_to_dict_total _ _ _ _ Ch E) as [T C].
      simpl. repeat split; auto; lia.
    + exfalso. exact (add_to_dict_succeeds _ _ _ Ch E).
Qed.

Lemma step_balanced nj nh st st' :
  step connect st st' -> balanced connect nj nh st ->
  balanced connect nj nh st' /\ total_rank st' < total_rank st.
Proof.
  intros [i t t' jv' hv' st0 Hi Ht] (Cj & Ch & Tj & Th).
  destruct (thread_step_balance _ _ _ _ _ _ Cj Ch Ht) as (Cj' & Ch' & Bj & Bh & R).
  pose proof (list_sum_replace_nth (owed_java connect) t t' _ _ Hi).
  pose proof (list_sum_replace_nth (owed_hadoop connect) t t' _ _ Hi).
  pose proof (list_sum_replace_nth rank t t' _ _ Hi).
  unfold balanced, total_rank. simpl. repeat split; auto; lia.
Qed.

Lemma steps_balanced nj nh st st' :
  steps connect st st' -> balanced connect nj nh st -> balanced connect nj nh st'.
Proof.
  induction 1 as [|st1 st2 st3 S _ IH]; [auto |].
  intros B. apply IH. eapply step_balanced; eauto.
Qed.

Lemma joined_owe_nothing st :
  all_joined st = true ->
  list_sum (map (owed_java connect) (threads st)) = 0 /\
  list_sum (map (owed_hadoop connect) (threads st)) = 0.
Proof.
  unfold all_joined. induction (threads st) as [|t l IH]; simpl; [auto |].
  intros H. apply andb_prop in H as [E H]. destruct (IH H) as [-> ->].
  destruct t; try discriminate; auto.
Qed.

Lemma spawn_owed slaves :
  list_sum (map (owed_java connect) (map Probing slaves))
    = List.length (filter (completes connect) slaves) /\
  list_sum (map (owed_hadoop connect) (map Probing slaves))
    = List.length (filter (completes connect) slaves).
Proof.
  induction slaves as [|s l [IHj IHh]]; simpl; [auto |].
  rewrite IHj, IHh. destruct (completes connect s); simpl; auto.
Qed.

(** When [check_java_hadoop_slaves] returns, each dictionary has gained one
    entry for every slave whose dialogue ran to its end, and none for the
    others. *)
Lemma check_java_hadoop_slaves_count slaves jv hv jv' hv' :
  contains "none" jv = true -> contains "none" hv = true ->
  check_java_hadoop_slaves connect slaves jv hv jv' hv' ->
  total_entries jv' =
    total_entries jv + List.length (filter (completes connect) slaves) /\
  total_entries hv' =
    total_entries hv + List.length (filter (completes connect) slaves) /\
  contains "none" jv' = true /\ contains "none" hv' = true.
Proof.
  intros Cj Ch (st & S & J & <- & <-).
  destruct (spawn_owed slaves) as [Oj Oh].
  assert (B : balanced connect
                (total_entries jv + List.length (filter (completes connect) slaves))
                (total_entries hv + List.length (filter (completes connect) slaves))
                (spawn jv hv slaves))
    by (unfold balanced; simpl; rewrite Oj, Oh; auto).
  destruct (steps_balanced _ _ _ _ S B) as (Cj' & Ch' & Tj & Th).
  destruct (joined_owe_nothing _ J) as [Zj Zh].
  rewrite Zj in Tj. rewrite Zh in Th. repeat split; auto; lia.
Qed.

(** *** Every thread ends unless a dialogue hangs *)

Lemma unjoined_thread l :
  forallb ended l = false ->
  exists i t, nth_error l i = Some t /\ ended t = false.
Proof.
  induction l as [|x l IH]; simpl; [discriminate |].
  destruct (ended x) eqn:E; simpl.
  - intros H. destruct (IH H) as (i & t & Hi & Ht). exists (S i), t. auto.
  - intros _. exists 0, x. auto.
Qed.

Lemma progress st :
  balanced connect (total_entries (java_vers st)
            + list_sum (map (owed_java connect) (threads st)))
           (total_entries (hadoop_vers st)
            + list_sum (map (owed_hadoop connect) (threads st))) st ->
  no_hang connect st -> all_joined st = false ->
  exists st', step connect st st' /\ no_hang connect st'.
Proof.
  intros (Cj & Ch & _) NH J.
  destruct (unjoined_thread _ J) as (i & t & Hi & Ht).
  assert (exists r, thread_step connect t (java_vers st) (hadoop_vers st) = Some r)
    as ([[t' jv'] hv'] & Hs).
  { destruct t as [s|s j h|s h| |e]; simpl in *; try discriminate.
    - assert (N : remote_versions connect s <> Hangs)
        by (apply NH; eapply nth_error_In; eauto).
      destruct (remote_versions connect s); eauto. contradiction.
    - destruct (add_to_dict j s (java_vers st)); eauto.
    - destruct (add_to_dict h s (hadoop_vers st)); eauto. }
  eexists. split; [econstructor; eauto |].
  intros s I. simpl in I. apply in_replace_nth in I as [E|I]; [| auto].
  exfalso. destruct t as [s0|s0 j h|s0 h| |e]; simpl in Hs; try discriminate.
  - destruct (remote_versions connect s0); congruence.
  - destruct (add_to_dict j s0 (java_vers st)); congruence.
  - destruct (add_to_dict h s0 (hadoop_vers st)); congruence.
Qed.

Lemma runs_to_the_end : forall n st,
  total_rank st <= n ->
  contains "none" (java_vers st) = true ->
  contains "none" (hadoop_vers st) = true ->
  no_hang connect st ->
  exists st', steps connect st st' /\ all_joined st' = true.
Proof.
  induction n as [|n IH]; intros st R Cj Ch NH;
    destruct (all_joined st) eqn:J;
    try (exists st; split; [constructor | exact J]).
  - assert (B : balanced connect _ _ st) by (repeat split; eauto).
    destruct (progress st B NH J) as (st' & S & _).
    destruct (step_balanced _ _ _ _ S B) as [_ L]. lia.
  - assert (B : balanced connect _ _ st) by (repeat split; eauto).
    destruct (progress st B NH J) as (st' & S & NH').
    destruct (step_balanced _ _ _ _ S B) as [(Cj' & Ch' & _) L].
    destruct (IH st') as (st'' & S' & J'); auto; [lia |].
    exists st''. split; [econstructor; eauto | exact J'].
Qed.

Lemma check_java_hadoop_slaves_returns slaves jv hv :
  contains "none" jv = true -> contains "none" hv = true ->
  (forall slave, In slave slaves -> remote_versions connect slave <> Hangs) ->
  exists jv' hv', check_java_hadoop_slaves connect slaves jv hv jv' hv'.
Proof.
  intros Cj Ch NH.
  destruct (runs_to_the_end (total_rank (spawn jv hv slaves))
              (spawn jv hv slaves)) as (st & S & J); auto.
  - intros s I. simpl in I. apply in_map_iff in I as (s' & E & I).
    injection E as ->. auto.
  - exists (java_vers st), (hadoop_vers st), st. auto.
Qed.

End Threads.

(** ** The inventory of [check_versions] *)

Lemma initial_vers_none ver host : contains "none" (initial_vers ver host) = true.
Proof.
  apply contains_true_iff. unfold initial_vers.
  rewrite getitem_setitem_same. eauto.
Qed.

Lemma initial_vers_total ver host :
  total_entries (initial_vers ver host) = if String.eqb "none" ver then 0 else 1.
Proof.
  unfold initial_vers. cbn [setitem].
  destruct (String.eqb "none" ver); reflexivity.
Qed.

(** A master whose version is spelled none gets no entry of its own: the
    display of lines 217 and 219 then names the key none twice and the
    empty list is the value kept. *)
Lemma master_version_none_is_overwritten host :
  initial_vers "none" host = [("none", [])].
Proof. reflexivity. Qed.

(** Three slaves recorded one after the other on the master's map. *)
Example three_slaves_recorded :
  match add_to_dict "8" "w1" (initial_vers "8" "master") with
  | Some d1 =>
      match add_to_dict "8" "w2" d1 with
      | Some d2 => add_to_dict "11" "w3" d2
      | None => None
      end
  | None => None
  end
  = Some [("8", ["master"; "w1"; "w2"]); ("none", []); ("11", ["w3"])].
Proof. reflexivity. Qed.

Lemma seed_versions_returns env w jv0 hv0 w0 :
  seed_versions env w = Returned (jv0, hv0) w0 ->
  jv0 = initial_vers (get_java_version (java_stderr env)) (hostname env) /\
  hv0 = initial_vers (get_hadoop_version (hadoop_stdout env)) (hostname env).
Proof.
  unfold seed_versions, check_java_master, check_hadoop_master, exit_with_msg.
  destruct (String.eqb (get_java_version _) _); simpl; [discriminate |].
  destruct (String.eqb (get_hadoop_version _) _); simpl; [discriminate |].
  intros H. injection H as <- <- _. auto.
Qed.

Lemma seed_versions_passes env w :
  get_java_version (java_stderr env) <> EmptyString ->
  get_hadoop_version (hadoop_stdout env) <> EmptyString ->
  seed_versions env w =
  Returned (initial_vers (get_java_version (java_stderr env)) (hostname env),
            initial_vers (get_hadoop_version (hadoop_stdout env)) (hostname env))
           w.
Proof.
  intros Nj Nh. apply String.eqb_neq in Nj, Nh.
  unfold seed_versions, check_java_master, check_hadoop_master.
  rewrite Nj. simpl. rewrite Nh. reflexivity.
Qed.

(** Each map holds the master, unless the master's version is spelled
    none, and one entry for every slave whose dialogue ran to its end. *)
Lemma inventory_of_count env jv hv :
  inventory_of env jv hv ->
  total_entries jv =
    (if String.eqb "none" (get_java_version (java_stderr env)) then 0 else 1)
    + List.length (filter (completes (connect env)) (slaves env)) /\
  total_entries hv =
    (if String.eqb "none" (get_hadoop_version (hadoop_stdout env)) then 0 else 1)
    + List.length (filter (completes (connect env)) (slaves env)) /\
  contains "none" jv = true /\ contains "none" hv = true.
Proof.
  intros (w & jv0 & hv0 & w0 & Hs & Hc).
  apply seed_versions_returns in Hs as [-> ->].
  apply check_java_hadoop_slaves_count in Hc; try apply initial_vers_none.
  now rewrite !initial_vers_total in Hc.
Qed.

Lemma inventory_of_exists env :
  get_java_version (java_stderr env) <> EmptyString ->
  get_hadoop_version (hadoop_stdout env) <> EmptyString ->
  (forall slave, In slave (slaves env) ->
                 remote_versions (connect env) slave <> Hangs) ->
  exists jv hv, inventory_of env jv hv.
Proof.
  intros Nj Nh NH.
  destruct (check_java_hadoop_slaves_returns (connect env) (slaves env)
              (initial_vers (get_java_version (java_stderr env)) (hostname env))
              (initial_vers (get_hadoop_version (hadoop_stdout env)) (hostname env)))
    as (jv & hv & H); try apply initial_vers_none; auto.
  exists jv, hv, (mkWorld EmptyString []). do 3 eexists.
  split; [apply seed_versions_passes; auto | exact H].
Qed.

Lemma filter_all {A} (f : A -> bool) l :
  (forall x, In x l -> f x = true) -> filter f l = l.
Proof. intros H. apply forallb_filter_id, forallb_forall, H. Qed.

(** C2, as stated, fails: with two slaves of which the first refuses the
    connection, the inventory completes and each map holds 2 entries (the
    master and the second slave), not 3. *)
Lemma inventory_misses_refusing_slave :
  slaves refusing_env <> [] /\
  List.length (slaves refusing_env) + 1 = 3 /\
  (exists jv hv, inventory_of refusing_env jv hv) /\
  (forall jv hv, inventory_of refusing_env jv hv ->
                 total_entries jv = 2 /\ total_entries hv = 2).
Proof.
  split; [discriminate |]. split; [reflexivity |]. split.
  - apply inventory_of_exists; try (vm_compute; discriminate).
    intros s _. unfold refusing_env, remote_versions. simpl.
    destruct (String.eqb s "w1"); vm_compute; discriminate.
  - intros jv hv H. apply inventory_of_count in H as (Hj & Hh & _).
    rewrite Hj, Hh. vm_compute. auto.
Qed.

(** C2, amended. Take a non-empty list of slaves whose dialogues all run to
    their end (no refused connection, no broken or silent channel, a line
    feed in the answer to which hadoop), and a master whose Java and Hadoop
    versions are recognised and are not spelled none.  Then the inventory
    completes, and whenever it does, each of the two maps holds
    [len(slaves) + 1] host entries summed over its buckets. *)
Theorem inventory_counts_slaves_plus_master
  (env : environment) (Hslaves : slaves env <> [])
  (Hcompletes : forall slave, In slave (slaves env) ->
                              completes (connect env) slave = true)
  (Hjava : get_java_version (java_stderr env) <> EmptyString /\
           get_java_version (java_stderr env) <> "none")
  (Hhadoop : get_hadoop_version (hadoop_stdout env) <> EmptyString /\
             get_hadoop_version (hadoop_stdout env) <> "none") :
  (exists jv hv, inventory_of env jv hv) /\
  (forall jv hv, inventory_of env jv hv ->
                 total_entries jv = List.length (slaves env) + 1 /\
                 total_entries hv = List.length (slaves env) + 1).
Proof.
  destruct Hjava as [Ej Nj], Hhadoop as [Eh Nh]. split.
  - apply inventory_of_exists; auto.
    intros s I E. specialize (Hcompletes s I).
    unfold completes in Hcompletes. rewrite E in Hcompletes. discriminate.
  - intros jv hv H. apply inventory_of_count in H as (Hj & Hh & _).
    rewrite filter_all in Hj, Hh by exact Hcompletes.
    assert (Qj : String.eqb "none" (get_java_version (java_stderr env)) = false)
      by (apply String.eqb_neq; congruence).
    assert (Qh : String.eqb "none" (get_hadoop_version (hadoop_stdout env)) = false)
      by (apply String.eqb_neq; congruence).
    rewrite Qj in Hj. rewrite Qh in Hh. lia.
Qed.

Lemma inventory_counts_slaves_plus_master_witness :
  slaves sample_env <> [] /\
  (exists jv hv, inventory_of sample_env jv hv) /\
  (forall jv hv, inventory_of sample_env jv hv ->
                 total_entries jv = 3 /\ total_entries hv = 3).
Proof.
  assert (Hs : slaves sample_env <> []) by discriminate.
  split; [exact Hs |].
  apply (inventory_counts_slaves_plus_master sample_env Hs).
  - intros s _. reflexivity.
  - split; vm_compute; discriminate.
  - split; vm_compute; discriminate.
Defined.

(** ** Reading the report back *)

Lemma join_empty_cons x l :
  join EmptyString (x :: l) = x ++ join EmptyString l.
Proof.
  unfold join. destruct l; simpl; [now rewrite append_empty_r | reflexivity].
Qed.

Lemma lines_of_line_lf l rest :
  no_newline l = true -> lines_of (l ++ String LF rest) = l :: lines_of rest.
Proof.
  induction l as [|c l IH]; simpl; intros N; [reflexivity |].
  apply andb_prop in N as [Nc N]. apply negb_true_iff in Nc.
  now rewrite Nc, IH.
Qed.

Lemma lines_of_line l rest :
  no_newline l = true -> lines_of (l ++ str1 LF ++ rest) = l :: lines_of rest.
Proof. apply lines_of_line_lf. Qed.

Lemma lines_of_hosts hosts rest :
  Forall (fun h => no_newline h = true) hosts ->
  lines_of (join EmptyString (map (fun host => host ++ str1 LF) hosts) ++ rest)
  = (hosts ++ lines_of rest)%list.
Proof.
  induction 1 as [|h hosts Hh _ IH]; [reflexivity |].
  cbn [map]. rewrite join_empty_cons, !append_assoc.
  rewrite lines_of_line by exact Hh. simpl. now rewrite IH.
Qed.

Lemma lines_of_entry version hosts rest :
  no_newline version = true ->
  Forall (fun h => no_newline h = true) hosts ->
  lines_of (render_entry (version, hosts) ++ rest) =
  ("Version " ++ version ++ ":") ::
    (sorted hosts ++ separator :: lines_of rest)%list.
Proof.
  intros Nv Nh. unfold render_entry.
  assert (Nl : no_newline ("Version " ++ version ++ ":") = true)
    by (simpl; rewrite no_newline_append, Nv; reflexivity).
  replace (("Version " ++ version ++ ":" ++ str1 LF
            ++ join EmptyString (map (fun host => host ++ str1 LF) (sorted hosts))
            ++ separator ++ str1 LF) ++ rest)
    with (("Version " ++ version ++ ":") ++ str1 LF
          ++ (join EmptyString (map (fun host => host ++ str1 LF) (sorted hosts))
              ++ separator ++ str1 LF ++ rest)).
  - rewrite lines_of_line by exact Nl. f_equal.
    rewrite lines_of_hosts.
    + f_equal.
    + eapply Permutation_Forall; [apply sorted_perm | exact Nh].
  - simpl. f_equal. rewrite !append_assoc. simpl.
    now rewrite !append_assoc.
Qed.

Lemma substring_whole s : substring 0 (String.length s) s = s.
Proof. induction s as [|c s IH]; simpl; [reflexivity | now rewrite IH]. Qed.

Lemma substring_prefix a b : substring 0 (String.length a) (a ++ b) = a.
Proof. induction a as [|c a IH]; simpl; [now destruct b | now rewrite IH]. Qed.

Lemma substring_skip a n s :
  substring (String.length a) n (a ++ s) = substring 0 n s.
Proof. induction a as [|c a IH]; simpl; [reflexivity | exact IH]. Qed.

Lemma parse_header_of_version version :
  parse_header ("Version " ++ version ++ ":") = Some version.
Proof.
  unfold parse_header.
  assert (L : String.length ("Version " ++ version ++ ":")
              = 8 + String.length version + 1)
    by (rewrite !length_append; simpl; lia).
  rewrite L.
  replace (8 + String.length version + 1 - 1)
    with (String.length ("Version " ++ version)) by (rewrite length_append; simpl; lia).
  replace (8 + String.length version + 1 - 9) with (String.length version) by lia.
  rewrite <- append_assoc, substring_skip.
  rewrite append_assoc.
  change 8 with (String.length "Version ").
  rewrite substring_skip, substring_prefix.
  assert (P : String.prefix "Version " ("Version " ++ version ++ ":") = true)
    by (apply prefix_correct, substring_prefix).
  rewrite P. reflexivity.
Qed.

Lemma parse_blocks_hosts version hosts rest : forall acc,
  Forall (fun h => h <> separator) hosts ->
  parse_blocks (Some (version, acc)) (hosts ++ separator :: rest)%list =
  match parse_blocks None rest with
  | Some blocks => Some ((version, acc ++ hosts)%list :: blocks)
  | None => None
  end.
Proof.
  induction hosts as [|h hosts IH]; intros acc F.
  - cbn [app parse_blocks]. rewrite String.eqb_refl, app_nil_r. reflexivity.
  - inversion F as [|? ? Hh F']; subst. apply String.eqb_neq in Hh.
    cbn [app parse_blocks]. rewrite Hh, IH by exact F'.
    now rewrite <- app_assoc.
Qed.

Lemma fits_lines_cons entry d :
  fits_lines (entry :: d) -> fits_lines d.
Proof. intros H v hs I. apply H. now right. Qed.

(** Re-reading what the loop of lines 71-75 writes gives back every
    version with its hosts in ascending order, block after block. *)
Lemma reparse_render d :
  fits_lines d -> reparse_report (render d) = Some (report_pairs d).
Proof.
  unfold reparse_report, render.
  induction d as [|[version hosts] d IH]; intros F; [reflexivity |].
  destruct (F version hosts (or_introl eq_refl)) as [Nv Nh].
  cbn [map]. rewrite join_empty_cons, lines_of_entry; auto.
  - cbn [parse_blocks]. rewrite parse_header_of_version.
    rewrite parse_blocks_hosts.
    + rewrite (IH (fits_lines_cons _ _ F)). reflexivity.
    + eapply Permutation_Forall; [apply sorted_perm |].
      apply Forall_forall. intros h I. now apply Nh.
  - apply Forall_forall. intros h I. now apply Nh.
Qed.

Lemma in_getitem d : well_formed d ->
  forall k v, In (k, v) d <-> getitem k d = Some v.
Proof.
  unfold well_formed. induction d as [|[k0 v0] d IH]; simpl; intros W k v.
  - split; [tauto | discriminate].
  - inversion W as [|? ? Hk W']; subst.
    destruct (String.eqb_spec k k0) as [->|N].
    + split.
      * intros [E|I]; [congruence |]. exfalso. apply Hk.
        change k0 with (fst (k0, v)). now apply in_map.
      * intros E. left. congruence.
    + rewrite <- (IH W'). split; [intros [E|I]; [congruence | exact I] | tauto].
Qed.

Lemma getitem_without_none k d :
  getitem k (without_none d) =
  if String.eqb "none" k then None else getitem k d.
Proof.
  unfold without_none. induction d as [|[k0 v0] d IH]; cbn [filter getitem fst].
  - now destruct (String.eqb "none" k).
  - destruct (String.eqb_spec "none" k0) as [<-|N0]; cbn [negb getitem].
    + rewrite IH, (String.eqb_sym k "none").
      now destruct (String.eqb "none" k).
    + rewrite IH. destruct (String.eqb_spec k k0) as [->|N]; [| reflexivity].
      apply String.eqb_neq in N0. now rewrite N0.
Qed.

Lemma well_formed_filter_key k d :
  well_formed d ->
  well_formed (filter (fun kv => negb (String.eqb k (fst kv))) d).
Proof.
  unfold well_formed, keys.
  induction d as [|[k' v] d IH]; simpl; intros W; [constructor |].
  inversion W as [|? ? Hk W']; subst.
  destruct (negb (String.eqb k k')); simpl; [| auto].
  constructor; [| auto].
  intros I. apply Hk. apply in_map_iff in I as (kv & E & I).
  apply filter_In in I as [I _]. apply in_map_iff. eauto.
Qed.

Lemma well_formed_without_none d : well_formed d -> well_formed (without_none d).
Proof. apply well_formed_filter_key. Qed.

Lemma keys_report_pairs d : map fst (report_pairs d) = keys d.
Proof. unfold report_pairs, keys. rewrite map_map. reflexivity. Qed.

Lemma report_pairs_nodup d : well_formed d -> NoDup (report_pairs d).
Proof.
  intros W. apply (NoDup_map_inv fst). now rewrite keys_report_pairs.
Qed.

(** The pairs of a report are the buckets other than none, each with its
    members sorted. *)
Lemma in_report_pairs d version hosts :
  well_formed d ->
  (In (version, hosts) (report_pairs (without_none d)) <->
   version <> "none" /\
   exists members, getitem version d = Some members /\ hosts = sorted members).
Proof.
  intros W. pose proof (well_formed_without_none _ W) as W'.
  unfold report_pairs. rewrite in_map_iff. split.
  - intros ([k members] & E & I). simpl in E. injection E as -> <-.
    apply (in_getitem _ W') in I. rewrite getitem_without_none in I.
    destruct (String.eqb_spec "none" version) as [<-|N]; [discriminate |].
    split; [congruence | eauto].
  - intros (N & members & G & ->). exists (version, members).
    split; [reflexivity |]. apply (in_getitem _ W').
    rewrite getitem_without_none.
    destruct (String.eqb_spec "none" version) as [<-|_]; [contradiction | exact G].
Qed.

Lemma same_map_pairs d1 d2 :
  well_formed d1 -> well_formed d2 -> same_map d1 d2 ->
  Permutation (report_pairs (without_none d1)) (report_pairs (without_none d2)).
Proof.
  intros W1 W2 S.
  apply NoDup_Permutation;
    try (apply report_pairs_nodup, well_formed_without_none; assumption).
  intros [version hosts]. rewrite !in_report_pairs by assumption.
  specialize (S version).
  split; intros (N & members & G & ->); (split; [exact N |]);
    rewrite G in S.
  - destruct (getitem version d2) as [m2|]; [| contradiction].
    exists m2. split; [reflexivity | now apply sorted_of_perm].
  - destruct (getitem version d1) as [m1|]; [| contradiction].
    exists m1. split; [reflexivity | symmetry; now apply sorted_of_perm].
Qed.

Lemma report_written_with_none cwd data filename w :
  well_formed data -> contains "none" data = true ->
  report_written cwd data filename w = Some (render (without_none data)).
Proof.
  intros W C. unfold report_written.
  destruct (write_to_file_with_none cwd data filename w C) as (d' & D & ->).
  rewrite (delitem_filter _ _ _ W D). simpl. apply read_set_file.
Qed.

(** C4, as stated, fails: for a map that has no none key the writer raises
    [KeyError] and produces no file, so there is nothing to read back. *)
Lemma no_report_for_map_without_none :
  contains "none" [("8", ["m"; "w1"])] = false /\
  write_to_file "/home/hduser" [("8", ["m"; "w1"])] "java_ver.txt"
                (mkWorld EmptyString [])
  = ([("8", ["m"; "w1"])], Raised KeyError (mkWorld EmptyString [])) /\
  report_written "/home/hduser" [("8", ["m"; "w1"])] "java_ver.txt"
                 (mkWorld EmptyString []) = None.
Proof. repeat split. Qed.

(** Why the amended statement asks that hosts fit on a line: a host with a
    line feed inside is read back as two hosts, and a host that reads like
    the separator ends its block early. *)
Lemma hosts_must_fit_lines :
  reparse_report (render [("8", ["a" ++ str1 LF ++ "b"])])
    = Some [("8", ["a"; "b"])] /\
  reparse_report (render [("8", [separator; "w1"])]) = None.
Proof. split; vm_compute; reflexivity. Qed.

(** C4, amended. Take a map with a none key (what [write_to_file] needs)
    whose other versions and hosts fit on a line.  Writing it and reading
    the file back gives exactly the pairs (version, hosts in ascending
    order) of its buckets other than none, each once.  A second map with
    the same buckets and members, inserted in any other order, gives the
    same pairs up to their order in the file. *)
Theorem report_round_trip
  (cwd filename : string) (w : world) (data1 data2 : dict)
  (W1 : well_formed data1) (W2 : well_formed data2)
  (N1 : contains "none" data1 = true)
  (F1 : fits_lines (without_none data1))
  (F2 : fits_lines (without_none data2))
  (S : same_map data1 data2) :
  exists content1 content2 pairs1 pairs2,
    report_written cwd data1 filename w = Some content1 /\
    report_written cwd data2 filename w = Some content2 /\
    reparse_report content1 = Some pairs1 /\
    reparse_report content2 = Some pairs2 /\
    NoDup pairs1 /\
    (forall version hosts,
        In (version, hosts) pairs1 <->
        version <> "none" /\
        exists members,
          getitem version data1 = Some members /\ hosts = sorted members) /\
    Permutation pairs1 pairs2.
Proof.
  assert (N2 : contains "none" data2 = true).
  { apply contains_true_iff in N1 as [v G]. specialize (S "none").
    rewrite G in S. apply contains_true_iff.
    destruct (getitem "none" data2); [eauto | contradiction]. }
  exists (render (without_none data1)), (render (without_none data2)),
    (report_pairs (without_none data1)), (report_pairs (without_none data2)).
  split; [now apply report_written_with_none |].
  split; [now apply report_written_with_none |].
  split; [now apply reparse_render |].
  split; [now apply reparse_render |].
  split; [now apply report_pairs_nodup, well_formed_without_none |].
  split; [intros; now apply in_report_pairs | now apply same_map_pairs].
Qed.

Lemma report_round_trip_witness :
  well_formed sample_vers /\ well_formed sample_vers_reordered /\
  contains "none" sample_vers = true /\
  fits_lines (without_none sample_vers) /\
  fits_lines (without_none sample_vers_reordered) /\
  same_map sample_vers sample_vers_reordered /\
  exists content1 content2 pairs1 pairs2,
    report_written "/home/hduser" sample_vers "java_ver.txt"
                   (mkWorld EmptyString []) = Some content1 /\
    report_written "/home/hduser" sample_vers_reordered "java_ver.txt"
                   (mkWorld EmptyString []) = Some content2 /\
    reparse_report content1 = Some pairs1 /\
    reparse_report content2 = Some pairs2 /\
    NoDup pairs1 /\
    (forall version hosts,
        In (version, hosts) pairs1 <->
        version <> "none" /\
        exists members,
          getitem version sample_vers = Some members /\ hosts = sorted members) /\
    Permutation pairs1 pairs2.
Proof.
  assert (W1 : well_formed sample_vers)
    by (unfold well_formed; simpl; repeat constructor; simpl; intuition discriminate).
  assert (W2 : well_formed sample_vers_reordered)
    by (unfold well_formed; simpl; repeat constructor; simpl; intuition discriminate).
  assert (N1 : contains "none" sample_vers = true) by reflexivity.
  assert (F1 : fits_lines (without_none sample_vers)).
  { intros v hs I. vm_compute in I.
    destruct I as [E|[E|[]]]; injection E as <- <-;
      (split; [reflexivity |]); intros h I; simpl in I;
      repeat (destruct I as [<-|I]; [split; [reflexivity | discriminate] |]);
      destruct I. }
  assert (F2 : fits_lines (without_none sample_vers_reordered)).
  { intros v hs I. vm_compute in I.
    destruct I as [E|[E|[]]]; injection E as <- <-;
      (split; [reflexivity |]); intros h I; simpl in I;
      repeat (destruct I as [<-|I]; [split; [reflexivity | discriminate] |]);
      destruct I. }
  assert (S : same_map sample_vers sample_vers_reordered).
  { intros k. unfold sample_vers, sample_vers_reordered. cbn [getitem].
    destruct (String.eqb_spec k "8") as [->|_]; [apply perm_swap |].
    destruct (String.eqb_spec k "11") as [->|_]; [apply Permutation_refl |].
    destruct (String.eqb_spec k "none") as [->|_]; [apply Permutation_refl |].
    exact I. }
  repeat (split; [assumption |]).
  exact (report_round_trip "/home/hduser" "java_ver.txt" (mkWorld EmptyString [])
           sample_vers sample_vers_reordered W1 W2 N1 F1 F2 S).
Defined.

(* ================================================================== *)
(** * Further properties of the code *)
(* ================================================================== *)

(** ** The probes *)

Lemma has_char_append c a b : has_char c (a ++ b) = has_char c a || has_char c b.
Proof.
  induction a as [|x a IH]; simpl; [reflexivity |].
  now rewrite IH, orb_assoc.
Qed.

(** The character that follows a shorter prefix lies in the longer one. *)
Lemma char_in_longer_prefix c : forall pre' pre a b,
  pre ++ a = pre' ++ String c b ->
  String.length pre' < String.length pre ->
  has_char c pre = true.
Proof.
  induction pre' as [|y pre' IH]; intros [|x pre] a b; simpl; intros E L;
    try lia.
  - injection E as -> _. now rewrite Ascii.eqb_refl.
  - injection E as _ E. rewrite (IH _ _ _ E) by lia. apply orb_true_r.
Qed.

Lemma probe_never_spans_lines p probe output :
  (forall s g0 g r, matches p s g0 g r -> no_newline g = true) ->
  probe_spec p probe output -> no_newline (probe output) = true.
Proof.
  intros Hp [[(g & (pre & (s & r & _ & M) & _) & ->) | (_ & ->)] _].
  - eauto.
  - reflexivity.
Qed.

(** X1. Whatever the text, the version a probe returns holds no line feed:
    a version never runs over the end of its line. *)
Theorem probed_version_is_on_one_line (output : string) :
  no_newline (get_java_version output) = true /\
  no_newline (get_hadoop_version output) = true.
Proof.
  split.
  - apply (probe_never_spans_lines java_re); [| apply java_probe_spec].
    intros s g0 g r M. now apply java_match_shape in M.
  - apply (probe_never_spans_lines hadoop_re); [| apply hadoop_probe_spec].
    intros s g0 g r M. now apply hadoop_match_shape in M.
Qed.

Lemma first_match_at p pre c s g r :
  (forall s' g0 g' r', matches p s' g0 g' r' -> exists t, s' = String c t) ->
  has_char c pre = false ->
  matches p s EmptyString g r ->
  first_match p (pre ++ s) g.
Proof.
  intros Hc Hpre M. exists pre. split; [exists s, r; auto |].
  intros pre' g' (s' & r' & E & M').
  destruct (Hc _ _ _ _ M') as [t ->].
  destruct (Nat.le_gt_cases (String.length pre) (String.length pre'))
    as [L|L]; [exact L |].
  rewrite (char_in_longer_prefix _ _ _ _ _ E L) in Hpre. discriminate.
Qed.

(** X2. A marker line is read back: after a prefix without the letter H,
    the line [Hadoop v] gives [v]; after a prefix without a double quote,
    the line [version "v"] gives [v]; for every [v] without line feed, the
    line ending where the text ends or a line feed follows. *)
Theorem probes_read_back_marker_line (pre v rest : string)
  (Hv : no_newline v = true) (Hrest : at_eol rest = true) :
  (has_char "H" pre = false ->
   get_hadoop_version (pre ++ "Hadoop " ++ v ++ rest) = v) /\
  (has_char DQUOTE pre = false ->
   get_java_version
     (pre ++ "version " ++ str1 DQUOTE ++ v ++ str1 DQUOTE ++ rest) = v).
Proof.
  split; intros Hpre.
  - destruct (hadoop_probe_spec (pre ++ "Hadoop " ++ v ++ rest)) as [_ U].
    apply U. apply (first_match_at _ _ "H"%char _ _ rest); auto.
    + intros s' g0 g' r' M. apply hadoop_match_shape in M as (-> & _). simpl. eauto.
    + apply hadoop_match_shape. auto.
  - destruct (java_probe_spec
                (pre ++ "version " ++ str1 DQUOTE ++ v ++ str1 DQUOTE ++ rest))
      as [_ U].
    apply U.
    replace (pre ++ "version " ++ str1 DQUOTE ++ v ++ str1 DQUOTE ++ rest)
      with ((pre ++ "version ") ++ String DQUOTE (v ++ String DQUOTE rest))
      by (now rewrite append_assoc).
    exists pre. split.
    + exists ("version " ++ String DQUOTE (v ++ String DQUOTE rest)), rest.
      split; [now rewrite append_assoc |]. apply java_match_shape. auto.
    + intros pre' g' (s' & r' & E & M').
      apply java_match_shape in M' as (-> & _).
      destruct (Nat.le_gt_cases (String.length pre) (String.length pre'))
        as [L|L]; [exact L |].
      assert (Q : has_char DQUOTE (pre ++ "version ") = true).
      { apply (char_in_longer_prefix DQUOTE (pre' ++ "version ") _
                 (String DQUOTE (v ++ String DQUOTE rest))
                 (g' ++ String DQUOTE r')).
        - rewrite E. now rewrite !append_assoc.
        - rewrite !length_append. simpl. lia. }
      rewrite has_char_append, Hpre in Q. discriminate.
Qed.

Lemma probes_read_back_marker_line_witness :
  no_newline "1.8.0_131" = true /\ at_eol (str1 LF ++ "Java(TM)") = true /\
  get_java_version
    ("java " ++ "version " ++ str1 DQUOTE ++ "1.8.0_131" ++ str1 DQUOTE
     ++ str1 LF ++ "Java(TM)") = "1.8.0_131".
Proof.
  split; [reflexivity |]. split; [reflexivity |].
  apply (probes_read_back_marker_line "java " "1.8.0_131"
           (str1 LF ++ "Java(TM)") eq_refl eq_refl).
  reflexivity.
Defined.

(** ** The remote dialogue *)

Lemma strip_cr_chars s :
  list_ascii_of_string (strip_cr s) =
  filter (fun c => negb (Ascii.eqb c CR)) (list_ascii_of_string s).
Proof.
  induction s as [|c s IH]; simpl; [reflexivity |].
  destruct (Ascii.eqb c CR); simpl; now rewrite IH.
Qed.

Lemma strip_cr_no_cr s : has_char CR (strip_cr s) = false.
Proof.
  induction s as [|c s IH]; simpl; [reflexivity |].
  destruct (Ascii.eqb c CR) eqn:E; simpl; [exact IH | now rewrite E].
Qed.

Lemma strip_cr_keeps c s :
  c <> CR -> has_char c (strip_cr s) = has_char c s.
Proof.
  intros N. induction s as [|x s IH]; [reflexivity |].
  cbn [strip_cr has_char]. destruct (Ascii.eqb x CR) eqn:E.
  - apply Ascii.eqb_eq in E. subst x.
    assert (F : Ascii.eqb CR c = false) by (apply Ascii.eqb_neq; congruence).
    now rewrite IH, F.
  - cbn [has_char]. now rewrite IH.
Qed.

(** X3. [run_remote_command] hands on the reply with every carriage return
    removed and all other characters kept, in order; the text it hands on
    holds no carriage return.  When the channel breaks or stays silent the
    rest of the dialogue is not run. *)
Theorem run_remote_command_strips_cr
  (cmd : string) (n : nat) (channel : shell) (k : string -> dialogue) :
  match channel n cmd with
  | Output raw =>
      exists output,
        run_remote_command cmd n channel k = k output /\
        has_char CR output = false /\
        list_ascii_of_string output =
          filter (fun c => negb (Ascii.eqb c CR)) (list_ascii_of_string raw)
  | Broken => run_remote_command cmd n channel k = Fails SSHException
  | Silent => run_remote_command cmd n channel k = Hangs
  end.
Proof.
  unfold run_remote_command. destruct (channel n cmd) as [raw| |]; auto.
  exists (strip_cr raw). split; [reflexivity |].
  split; [apply strip_cr_no_cr | apply strip_cr_chars].
Qed.

Lemma split_lf_nonempty s : split_lf s <> [].
Proof.
  destruct s as [|c s]; simpl; [discriminate |].
  destruct (Ascii.eqb c LF); [discriminate |].
  destruct (split_lf s); discriminate.
Qed.

(** [s.split("\n")] has a second piece exactly when [s] holds a line feed. *)
Lemma split_lf_second s :
  nth_error (split_lf s) 1 = None <-> has_char LF s = false.
Proof.
  induction s as [|c s IH]; simpl; [tauto |].
  destruct (Ascii.eqb c LF); simpl.
  - pose proof (split_lf_nonempty s). destruct (split_lf s); [contradiction |].
    split; discriminate.
  - destruct (split_lf s) as [|p ps] eqn:E; [now destruct (split_lf_nonempty s) |].
    exact IH.
Qed.

(** X4. The thread of a slave dies of [IndexError] (line 177) exactly when
    the connection is made, the first two commands are answered, and the
    answer to which hadoop holds no line feed. *)
Theorem index_error_iff_which_reply_on_one_line
  (connect : string -> option shell) (slave : string) :
  remote_versions connect slave = Fails IndexError <->
  exists channel raw0 raw1,
    connect slave = Some channel /\
    channel 0 ("java -version" ++ str1 LF) = Output raw0 /\
    channel 1 ("which hadoop" ++ str1 LF) = Output raw1 /\
    has_char LF raw1 = false.
Proof.
  unfold remote_versions, run_remote_command. split.
  - destruct (connect slave) as [ch|]; [| discriminate].
    destruct (ch 0 _) as [raw0| |] eqn:E0; try discriminate.
    destruct (ch 1 _) as [raw1| |] eqn:E1; try discriminate.
    destruct (nth_error (split_lf (strip_cr raw1)) 1) as [path|] eqn:En.
    + destruct (ch 2 _); discriminate.
    + intros _. exists ch, raw0, raw1. repeat split; auto.
      apply split_lf_second in En.
      rewrite strip_cr_keeps in En by discriminate. exact En.
  - intros (ch & raw0 & raw1 & -> & -> & -> & H).
    rewrite <- (strip_cr_keeps LF raw1) in H by discriminate.
    apply split_lf_second in H. now rewrite H.
Qed.

(** ** [add_to_dict], with or without a none key *)

Lemma add_to_dict_result version host dic dic' :
  add_to_dict version host dic = Some dic' ->
  dic' = setitem (target_bucket version)
                 (bucket (target_bucket version) dic ++ [host])%list dic.
Proof.
  unfold add_to_dict, target_bucket, bucket, contains.
  destruct (String.eqb version EmptyString).
  - destruct (getitem "none" dic); [| discriminate]. now intros [= <-].
  - destruct (getitem version dic); simpl; now intros [= <-].
Qed.

(** X5. [add_to_dict] raises [KeyError] exactly when the version is the
    empty string and the dictionary has no none key; a non-empty version is
    recorded whether or not the none key is there. *)
Theorem add_to_dict_keyerror_iff (version host : string) (dic : dict) :
  add_to_dict version host dic = None <->
  version = EmptyString /\ contains "none" dic = false.
Proof.
  unfold add_to_dict, contains.
  destruct (String.eqb_spec version EmptyString) as [->|N].
  - destruct (getitem "none" dic); split; try discriminate; auto.
    intros [_ H]. discriminate.
  - destruct (getitem version dic); simpl; split; try discriminate;
      intros [E _]; contradiction.
Qed.



(** ** What the inventory holds, whatever the schedule *)

Lemma bucket_setitem k t v d :
  bucket k (setitem t v d) = if String.eqb k t then v else bucket k d.
Proof.
  unfold bucket. destruct (String.eqb_spec k t) as [->|N].
  - now rewrite getitem_setitem_same.
  - now rewrite getitem_setitem_other.
Qed.

Lemma flat_map_replace_nth {A B} (f : A -> list B) t t' : forall l i,
  nth_error l i = Some t ->
  Permutation (flat_map f (replace_nth i t' l) ++ f t)
              (flat_map f l ++ f t').
Proof.
  induction l as [|x l IH]; intros [|i]; simpl; intros H; try discriminate.
  - injection H as ->.
    transitivity (f t ++ (f t' ++ flat_map f l))%list;
      [apply Permutation_app_comm |].
    rewrite <- app_assoc. apply Permutation_app_head, Permutation_app_comm.
  - rewrite <- !app_assoc. apply Permutation_app_head. now apply IH.
Qed.

Lemma add_to_dict_bucket version host d d' k :
  add_to_dict version host d = Some d' ->
  bucket k d' =
    (bucket k d
     ++ (if String.eqb (target_bucket version) k then [host] else []))%list /\
  (contains k d' = true -> contains k d = true \/ bucket k d' <> []) /\
  (contains k d = true -> contains k d' = true).
Proof.
  intros E. apply add_to_dict_result in E. subst d'.
  unfold contains. rewrite bucket_setitem, (String.eqb_sym k).
  destruct (String.eqb_spec (target_bucket version) k) as [->|N].
  - rewrite getitem_setitem_same. split; [reflexivity |]. split; [| auto].
    intros _. right. now destruct (bucket k d).
  - rewrite getitem_setitem_other by congruence.
    rewrite app_nil_r. auto.
Qed.

(** One step of a thread moves a host from what the thread owes to a bucket
    into that bucket, and never removes a key. *)
Lemma thread_step_moves_host connect k t jv hv t' jv' hv' :
  contains "none" jv = true -> contains "none" hv = true ->
  thread_step connect t jv hv = Some (t', jv', hv') ->
  (bucket k jv' ++ java_owed_to connect k t'
   = bucket k jv ++ java_owed_to connect k t)%list /\
  (bucket k hv' ++ hadoop_owed_to connect k t'
   = bucket k hv ++ hadoop_owed_to connect k t)%list /\
  (contains k jv' = true -> contains k jv = true \/ bucket k jv' <> []) /\
  (contains k hv' = true -> contains k hv = true \/ bucket k hv' <> []) /\
  (contains k jv = true -> contains k jv' = true) /\
  (contains k hv = true -> contains k hv' = true) /\
  (bucket k jv <> [] -> bucket k jv' <> []) /\
  (bucket k hv <> [] -> bucket k hv' <> []).
Proof.
  intros Cj Ch H. destruct t as [s|s j h|s h| |e]; simpl in H; try discriminate.
  - unfold java_owed_to, hadoop_owed_to, java_target, hadoop_target.
    destruct (remote_versions connect s); try discriminate;
      injection H as <- <- <-; simpl; repeat split; auto.
  - destruct (add_to_dict j s jv) as [d|] eqn:E;
      [| exfalso; exact (add_to_dict_succeeds _ _ _ Cj E)].
    injection H as <- <- <-.
    destruct (add_to_dict_bucket _ _ _ _ k E) as (B & N & M).
    cbn [java_owed_to hadoop_owed_to]. rewrite ?app_nil_r.
    split; [auto |]. split; [auto |].
    repeat split; auto; rewrite B; intros Q Q';
      apply app_eq_nil in Q' as [Q' _]; contradiction.
  - destruct (add_to_dict h s hv) as [d|] eqn:E;
      [| exfalso; exact (add_to_dict_succeeds _ _ _ Ch E)].
    injection H as <- <- <-.
    destruct (add_to_dict_bucket _ _ _ _ k E) as (B & N & M).
    cbn [java_owed_to hadoop_owed_to]. rewrite ?app_nil_r.
    split; [auto |]. split; [auto |].
    repeat split; auto; rewrite B; intros Q Q';
      apply app_eq_nil in Q' as [Q' _]; contradiction.
Qed.

Lemma perm_move {A} (b b' o o' f f' x : list A) :
  (b' ++ o' = b ++ o)%list ->
  Permutation (f' ++ o) (f ++ o') ->
  Permutation (b ++ f) x -> Permutation (b' ++ f') x.
Proof.
  intros E P X. apply Permutation_trans with (b ++ f)%list; [| exact X].
  apply (Permutation_app_inv_r o).
  rewrite <- app_assoc.
  apply Permutation_trans with (b' ++ (f ++ o'))%list;
    [now apply Permutation_app_head |].
  apply Permutation_trans with ((b' ++ o') ++ f)%list.
  - rewrite <- app_assoc. apply Permutation_app_head, Permutation_app_comm.
  - rewrite E, <- !app_assoc. apply Permutation_app_head, Permutation_app_comm.
Qed.

Section Buckets.

Variable connect : string -> option shell.
Variable k : string.
Variables jv0 hv0 : dict.

Lemma step_tracked xj xh st st' :
  step connect st st' ->
  tracked connect k jv0 hv0 xj xh st -> tracked connect k jv0 hv0 xj xh st'.
Proof.
  intros [i t t' jv' hv' st0 Hi Ht] (Cj & Ch & Pj & Ph & Nj & Nh & Mj & Mh).
  destruct (thread_step_balance _ _ _ _ _ _ _ Cj Ch Ht) as (Cj' & Ch' & _).
  destruct (thread_step_moves_host _ k _ _ _ _ _ _ Cj Ch Ht)
    as (Ej & Eh & Nj' & Nh' & Mj' & Mh' & Gj & Gh).
  pose proof (flat_map_replace_nth (java_owed_to connect k) t t' _ _ Hi) as Fj.
  pose proof (flat_map_replace_nth (hadoop_owed_to connect k) t t' _ _ Hi) as Fh.
  unfold tracked. simpl.
  split; [exact Cj' |]. split; [exact Ch' |].
  split; [exact (perm_move _ _ _ _ _ _ _ Ej Fj Pj) |].
  split; [exact (perm_move _ _ _ _ _ _ _ Eh Fh Ph) |].
  split; [intros C; destruct (Nj' C) as [C'|]; [| now right];
          destruct (Nj C'); auto |].
  split; [intros C; destruct (Nh' C) as [C'|]; [| now right];
          destruct (Nh C'); auto |].
  auto.
Qed.

Lemma steps_tracked xj xh st st' :
  steps connect st st' ->
  tracked connect k jv0 hv0 xj xh st -> tracked connect k jv0 hv0 xj xh st'.
Proof.
  induction 1 as [|st1 st2 st3 S _ IH]; [auto |].
  intros T. apply IH. eapply step_tracked; eauto.
Qed.

Lemma joined_owe_no_host st :
  all_joined st = true ->
  flat_map (java_owed_to connect k) (threads st) = [] /\
  flat_map (hadoop_owed_to connect k) (threads st) = [].
Proof.
  unfold all_joined. induction (threads st) as [|t l IH]; simpl; [auto |].
  intros H. apply andb_prop in H as [E H]. destruct (IH H) as [-> ->].
  destruct t; try discriminate; auto.
Qed.

Lemma spawn_owes slaves :
  flat_map (java_owed_to connect k) (map Probing slaves)
    = java_members connect slaves k /\
  flat_map (hadoop_owed_to connect k) (map Probing slaves)
    = hadoop_members connect slaves k.
Proof.
  unfold java_members, hadoop_members.
  induction slaves as [|s l [IHj IHh]]; simpl; [auto |].
  rewrite IHj, IHh.
  split; [destruct (aims_at (java_target connect s) k)
         | destruct (aims_at (hadoop_target connect s) k)]; reflexivity.
Qed.

Lemma run_tracked slaves jv hv :
  contains "none" jv0 = true -> contains "none" hv0 = true ->
  check_java_hadoop_slaves connect slaves jv0 hv0 jv hv ->
  Permutation (bucket k jv) (bucket k jv0 ++ java_members connect slaves k) /\
  Permutation (bucket k hv) (bucket k hv0 ++ hadoop_members connect slaves k) /\
  (contains k jv = true <-> contains k jv0 = true \/ bucket k jv <> []) /\
  (contains k hv = true <-> contains k hv0 = true \/ bucket k hv <> []).
Proof.
  intros Cj Ch (st & S & J & <- & <-).
  destruct (spawn_owes slaves) as [Oj Oh].
  assert (T : tracked connect k jv0 hv0 (bucket k jv0 ++ java_members connect slaves k)
                      (bucket k hv0 ++ hadoop_members connect slaves k)
                      (spawn jv0 hv0 slaves)).
  { unfold tracked. simpl. rewrite Oj, Oh. repeat split; auto. }
  destruct (steps_tracked _ _ _ _ S T) as (_ & _ & Pj & Ph & Nj & Nh & Mj & Mh).
  destruct (joined_owe_no_host _ J) as [Zj Zh].
  rewrite Zj, app_nil_r in Pj. rewrite Zh, app_nil_r in Ph.
  assert (B : forall d, bucket k d <> [] -> contains k d = true).
  { intros d. unfold bucket, contains. destruct (getitem k d); congruence. }
  repeat split; auto; intros [C|C]; auto.
Qed.

End Buckets.

(** X7. When [check_java_hadoop_slaves] returns, the bucket of every key
    holds, up to order, the hosts it held before together with the slaves
    whose dialogue ran to the end and whose version belongs in that bucket
    (the none bucket for an empty version).  A slave whose thread died is in
    no bucket. *)
Theorem inventory_buckets
  (connect : string -> option shell) (slaves : list string)
  (jv0 hv0 jv hv : dict) (k : string)
  (Hjava : contains "none" jv0 = true) (Hhadoop : contains "none" hv0 = true)
  (Hrun : check_java_hadoop_slaves connect slaves jv0 hv0 jv hv) :
  Permutation (bucket k jv) (bucket k jv0 ++ java_members connect slaves k) /\
  Permutation (bucket k hv) (bucket k hv0 ++ hadoop_members connect slaves k).
Proof.
  destruct (run_tracked connect k jv0 hv0 slaves jv hv Hjava Hhadoop Hrun)
    as (Pj & Ph & _).
  auto.
Qed.

Lemma refusing_run_exists :
  exists jv hv,
    check_java_hadoop_slaves (connect refusing_env) ["w1"; "w2"]
      (initial_vers "1.8.0_131" "master") (initial_vers "2.7.3" "master")
      jv hv.
Proof.
  apply check_java_hadoop_slaves_returns; try reflexivity.
  intros s _. unfold refusing_env, remote_versions. simpl.
  destruct (String.eqb s "w1"); vm_compute; discriminate.
Defined.

Lemma inventory_buckets_witness :
  contains "none" (initial_vers "1.8.0_131" "master") = true /\
  contains "none" (initial_vers "2.7.3" "master") = true /\
  exists jv hv,
    check_java_hadoop_slaves (connect refusing_env) ["w1"; "w2"]
      (initial_vers "1.8.0_131" "master") (initial_vers "2.7.3" "master")
      jv hv /\
    Permutation (bucket "1.8.0_131" jv) ["master"; "w2"].
Proof.
  split; [reflexivity |]. split; [reflexivity |].
  destruct refusing_run_exists as (jv & hv & Hrun).
  exists jv, hv. split; [exact Hrun |].
  apply (inventory_buckets (connect refusing_env) ["w1"; "w2"]
           (initial_vers "1.8.0_131" "master") (initial_vers "2.7.3" "master")
           jv hv "1.8.0_131" eq_refl eq_refl Hrun).
Defined.





(** ** Every schedule comes to an end *)








(** ** More on [write_to_file] *)

Lemma read_set_file_other path path' content fs :
  path' <> path -> read_file path' (set_file path content fs) = read_file path' fs.
Proof.
  intros N. induction fs as [|[p c] fs IH]; simpl.
  - apply String.eqb_neq in N. now rewrite N.
  - destruct (String.eqb_spec path p) as [->|Np]; simpl.
    + apply String.eqb_neq in N. now rewrite N.
    + now rewrite IH.
Qed.

(** X10. [write_to_file] cannot be called twice on one dictionary: whatever
    the first call did, a second call on the dictionary it leaves behind
    raises [KeyError], because the first call has deleted the none key. *)
Theorem write_to_file_twice_raises
  (cwd filename cwd' filename' : string) (data : dict) (w w' : world)
  (Hwf : well_formed data) :
  write_to_file cwd' (fst (write_to_file cwd data filename w)) filename' w'
  = (fst (write_to_file cwd data filename w), Raised KeyError w').
Proof.
  apply write_to_file_without_none, contains_false_iff.
  unfold write_to_file.
  destruct (delitem "none" data) as [d'|] eqn:E; simpl.
  - eapply getitem_delitem_same; eauto.
  - now apply delitem_none_iff.
Qed.

Lemma write_to_file_twice_raises_witness :
  well_formed sample_vers /\
  write_to_file "/home/hduser"
    (fst (write_to_file "/home/hduser" sample_vers "java_ver.txt"
            (mkWorld EmptyString [])))
    "java_ver.txt" (mkWorld EmptyString [])
  = ([("8", ["m"; "w1"]); ("11", ["w3"])],
     Raised KeyError (mkWorld EmptyString [])).
Proof.
  assert (W : well_formed sample_vers)
    by (unfold well_formed; simpl; repeat constructor; simpl; intuition discriminate).
  split; [exact W |].
  apply (write_to_file_twice_raises "/home/hduser" "java_ver.txt"
           "/home/hduser" "java_ver.txt" sample_vers
           (mkWorld EmptyString []) (mkWorld EmptyString []) W).
Defined.

(** X11. A call of [write_to_file] that returns prints one line, Writing to
    followed by the path, replaces the content of the file at that path
    whatever it was, and leaves every other file as it is. *)
Theorem write_to_file_touches_one_file
  (cwd filename : string) (data : dict) (w : world)
  (Hnone : contains "none" data = true) :
  exists data' w',
    write_to_file cwd data filename w = (data', Returned tt w') /\
    stdout w' = stdout w ++ "Writing to " ++ path_join cwd filename ++ str1 LF /\
    read_file (path_join cwd filename) (files w') = Some (render data') /\
    (forall path, path <> path_join cwd filename ->
                  read_file path (files w') = read_file path (files w)).
Proof.
  destruct (write_to_file_with_none cwd data filename w Hnone) as (d' & _ & E).
  exists d'. eexists. split; [exact E |].
  unfold write_file, print, write_stdout. cbn [stdout files].
  split; [| split].
  - now rewrite append_assoc.
  - apply read_set_file.
  - intros path N. now apply read_set_file_other.
Qed.

Lemma write_to_file_touches_one_file_witness :
  contains "none" sample_vers = true /\
  exists data' w',
    write_to_file "/home/hduser" sample_vers "java_ver.txt"
      (mkWorld EmptyString [("/home/hduser/java_ver.txt", "old");
                            ("/home/hduser/notes", "kept")])
    = (data', Returned tt w') /\
    read_file "/home/hduser/notes" (files w') = Some "kept".
Proof.
  split; [reflexivity |].
  destruct (write_to_file_touches_one_file "/home/hduser" "java_ver.txt"
              sample_vers
              (mkWorld EmptyString [("/home/hduser/java_ver.txt", "old");
                                    ("/home/hduser/notes", "kept")])
              eq_refl) as (d' & w' & E & _ & _ & F).
  exists d', w'. split; [exact E |].
  rewrite F; [reflexivity | discriminate].
Defined.

(** ** [check_ping] *)

Lemma starts_with_iff sub s :
  starts_with sub s = true <-> exists rest, s = sub ++ rest.
Proof.
  revert s. induction sub as [|a sub IH]; intros s; simpl.
  - split; eauto.
  - destruct s as [|b s].
    + split; [discriminate | intros [r E]; discriminate].
    + rewrite andb_true_iff, IH. split.
      * intros [E [r ->]]. apply Ascii.eqb_eq in E. subst. eauto.
      * intros [r E]. injection E as -> ->. rewrite Ascii.eqb_refl. eauto.
Qed.

(** [sub in s] holds exactly when [sub] occurs somewhere in [s]. *)
Lemma is_substring_iff sub s :
  is_substring sub s = true <-> exists before after, s = before ++ sub ++ after.
Proof.
  induction s as [|c s IH]; simpl; rewrite orb_true_iff, starts_with_iff.
  - split.
    + intros [[r E]|H]; [| discriminate]. exists EmptyString, r. exact E.
    + intros (b & a & E). left.
      symmetry in E. apply append_eq_empty in E as [-> E]. simpl in E.
      exists a. now symmetry.
  - rewrite IH. split.
    + intros [[r E]|(b & a & ->)]; [exists EmptyString, r; exact E |].
      exists (String c b), a. reflexivity.
    + intros ([|x b] & a & E); [left; eauto |].
      simpl in E. injection E as -> ->. right. eauto.
Qed.

Lemma ping_slaves_lists pinged : forall acc,
  ping_slaves acc pinged =
  mkPingLists (successful_ping acc ++ slaves_with ping_ok pinged)
              (fail_ping acc ++ slaves_with ping_failed pinged)
              (unknown_ping acc ++ slaves_with ping_unknown pinged).
Proof.
  unfold slaves_with, ping_unknown, ping_failed.
  induction pinged as [|[slave out] rest IH]; intros [s f u]; simpl.
  - now rewrite !app_nil_r.
  - rewrite IH. unfold record_ping, ping_ok. simpl.
    destruct (is_substring success_msg out); simpl;
      [now rewrite <- app_assoc |].
    destruct (is_substring "unknown host" out); simpl;
      now rewrite <- app_assoc.
Qed.

Lemma slaves_with_nil f pinged :
  slaves_with f pinged = [] <->
  forall entry, In entry pinged -> f (snd entry) = false.
Proof.
  unfold slaves_with. induction pinged as [|e rest IH]; simpl.
  - split; [intros _ ? [] | reflexivity].
  - destruct (f (snd e)) eqn:E; simpl.
    + split; [discriminate |]. intros H. rewrite (H e) in E by auto. discriminate.
    + rewrite IH. split; [intros H x [<-|I]; auto | auto].
Qed.

Lemma slaves_with_all f pinged :
  (forall entry, In entry pinged -> f (snd entry) = true) ->
  slaves_with f pinged = map fst pinged.
Proof.
  intros H. unfold slaves_with. f_equal. apply filter_all. exact H.
Qed.

(** X12. Every pinged slave lands in exactly one of the three lists of
    [check_ping], in the order of the slave file: the successful ones when
    the output holds the success line, else the unknown ones when it holds
    unknown host, else the failed ones. *)
Theorem ping_slaves_partition (pinged : list (string * string)) :
  let lists := ping_slaves (mkPingLists [] [] []) pinged in
  successful_ping lists = slaves_with ping_ok pinged /\
  unknown_ping lists = slaves_with ping_unknown pinged /\
  fail_ping lists = slaves_with ping_failed pinged /\
  Permutation (successful_ping lists ++ unknown_ping lists ++ fail_ping lists)
              (map fst pinged) /\
  (forall stdout,
      ping_ok stdout = true <->
      exists before after, stdout = before ++ success_msg ++ after).
Proof.
  rewrite ping_slaves_lists. cbn [successful_ping fail_ping unknown_ping app].
  split; [reflexivity |]. split; [reflexivity |]. split; [reflexivity |].
  split; [| intros stdout; apply is_substring_iff].
  unfold slaves_with, ping_unknown, ping_failed, ping_ok.
  induction pinged as [|[slave out] rest IH]; cbn [filter map fst snd app];
    [constructor |].
  destruct (is_substring success_msg out); cbn [negb andb map fst app];
    [now constructor |].
  destruct (is_substring "unknown host" out); cbn [negb andb map fst app].
  - apply Permutation_sym. eapply Permutation_trans;
      [| apply Permutation_middle]. constructor. now apply Permutation_sym.
  - apply Permutation_sym. eapply Permutation_trans;
      [| apply Permutation_app_head, Permutation_middle].
    eapply Permutation_trans; [| apply Permutation_middle].
    constructor. now apply Permutation_sym.
Qed.

Lemma check_ping_cases pinged w :
  check_ping pinged w =
  match slaves_with ping_unknown pinged with
  | _ :: _ =>
      exit_with_msg
        (unknown_hosts_msg (join ", " (slaves_with ping_unknown pinged))) w
  | [] =>
      match slaves_with ping_failed pinged with
      | _ :: _ =>
          exit_with_msg
            (cannot_ping_msg (join ", " (slaves_with ping_failed pinged))) w
      | [] =>
          match slaves_with ping_ok pinged with
          | [] => exit_with_msg no_slaves_msg w
          | _ :: _ =>
              Returned tt
                (print ("Sucessfully ping-ed these nodes: "
                        ++ join ", " (slaves_with ping_ok pinged)) w)
          end
      end
  end.
Proof. unfold check_ping. rewrite ping_slaves_lists. reflexivity. Qed.

Lemma all_ok_lists pinged :
  (forall entry, In entry pinged -> ping_ok (snd entry) = true) ->
  slaves_with ping_unknown pinged = [] /\
  slaves_with ping_failed pinged = [] /\
  slaves_with ping_ok pinged = map fst pinged.
Proof.
  intros H. split; [| split].
  - apply slaves_with_nil. intros e I. unfold ping_unknown. now rewrite H.
  - apply slaves_with_nil. intros e I. unfold ping_failed. now rewrite H.
  - now apply slaves_with_all.
Qed.

(** X13. [check_ping] returns exactly when the slave file lists at least
    one slave and every ping output holds the success line; it then prints
    the slaves in order.  Otherwise it exits with code 1: naming the unknown
    hosts if there is any, else naming the slaves that could not be pinged,
    else (no slave at all) asking to fill the slave file. *)
Theorem check_ping_outcome (pinged : list (string * string)) (w : world) :
  ((exists w', check_ping pinged w = Returned tt w') <->
   pinged <> [] /\
   forall entry, In entry pinged -> ping_ok (snd entry) = true) /\
  (pinged <> [] ->
   (forall entry, In entry pinged -> ping_ok (snd entry) = true) ->
   check_ping pinged w =
   Returned tt
     (print ("Sucessfully ping-ed these nodes: " ++ join ", " (map fst pinged))
            w)) /\
  (slaves_with ping_unknown pinged <> [] ->
   check_ping pinged w =
   Exited 1
     (print (unknown_hosts_msg (join ", " (slaves_with ping_unknown pinged)))
            w)) /\
  (slaves_with ping_unknown pinged = [] ->
   slaves_with ping_failed pinged <> [] ->
   check_ping pinged w =
   Exited 1
     (print (cannot_ping_msg (join ", " (slaves_with ping_failed pinged))) w)) /\
  (pinged = [] -> check_ping pinged w = Exited 1 (print no_slaves_msg w)).
Proof.
  rewrite check_ping_cases.
  assert (Hall : pinged <> [] ->
                 (forall entry, In entry pinged -> ping_ok (snd entry) = true) ->
                 match slaves_with ping_unknown pinged with
                 | _ :: _ =>
                     exit_with_msg
                       (unknown_hosts_msg
                          (join ", " (slaves_with ping_unknown pinged))) w
                 | [] =>
                     match slaves_with ping_failed pinged with
                     | _ :: _ =>
                         exit_with_msg
                           (cannot_ping_msg
                              (join ", " (slaves_with ping_failed pinged))) w
                     | [] =>
                         match slaves_with ping_ok pinged with
                         | [] => exit_with_msg no_slaves_msg w
                         | _ :: _ =>
                             Returned tt
                               (print ("Sucessfully ping-ed these nodes: "
                                       ++ join ", " (slaves_with ping_ok pinged))
                                      w)
                         end
                     end
                 end
                 = Returned tt
                     (print ("Sucessfully ping-ed these nodes: "
                             ++ join ", " (map fst pinged)) w)).
  { intros N H. destruct (all_ok_lists _ H) as (-> & -> & ->).
    destruct pinged; [contradiction | reflexivity]. }
  split; [| split; [exact Hall | split; [| split]]].
  - split.
    + intros [w' E].
      destruct (slaves_with ping_unknown pinged) eqn:U; [| discriminate].
      destruct (slaves_with ping_failed pinged) eqn:F; [| discriminate].
      destruct (slaves_with ping_ok pinged) eqn:O; [discriminate |].
      split; [intros ->; discriminate |].
      intros e I.
      pose proof (proj1 (slaves_with_nil _ _) U e I) as Hu.
      pose proof (proj1 (slaves_with_nil _ _) F e I) as Hf.
      unfold ping_unknown, ping_failed in Hu, Hf.
      destruct (ping_ok (snd e)); [reflexivity |].
      destruct (is_substring "unknown host" (snd e)); discriminate.
    + intros [N H]. rewrite (Hall N H). eauto.
  - intros N. destruct (slaves_with ping_unknown pinged);
      [contradiction | reflexivity].
  - intros -> N. destruct (slaves_with ping_failed pinged);
      [contradiction | reflexivity].
  - intros ->. reflexivity.
Qed.

(** ** [check_ssh] *)

Lemma check_ssh_connected attempts w :
  (forall entry, In entry attempts -> snd entry = Connected) ->
  check_ssh attempts w = (map fst attempts, Returned tt w).
Proof.
  induction attempts as [|[slave r] rest IH]; intros H; [reflexivity |].
  assert (r = Connected) as -> by (apply (H (slave, r)); now left).
  simpl. rewrite IH; [reflexivity | intros e I; apply H; now right].
Qed.

Lemma check_ssh_first_failure before slave result rest w :
  (forall entry, In entry before -> snd entry = Connected) ->
  result <> Connected ->
  check_ssh (before ++ (slave, result) :: rest) w =
  (map fst before ++ [slave], ssh_failure slave result w)%list.
Proof.
  intros H N. induction before as [|[s r] before IH]; simpl.
  - destruct result; try reflexivity. contradiction.
  - assert (r = Connected) as -> by (apply (H (s, r)); now left).
    rewrite IH; [reflexivity | intros e I; apply H; now right].
Qed.

(** X14. [check_ssh] connects to the slaves in order and stops at the
    first one whose connection is not made: the slaves after it are not
    contacted, and the run ends with the message for that slave and exit
    code 1 (or with the exception, when it is not one of the two caught).
    When every connection is made it returns without printing anything. *)
Theorem check_ssh_stops_at_first_failure
  (before rest : list (string * ssh_connect)) (slave : string)
  (result : ssh_connect) (w : world)
  (Hbefore : forall entry, In entry before -> snd entry = Connected)
  (Hfail : result <> Connected) :
  check_ssh before w = (map fst before, Returned tt w) /\
  fst (check_ssh (before ++ (slave, result) :: rest) w)
    = (map fst before ++ [slave])%list /\
  snd (check_ssh (before ++ (slave, result) :: rest) w)
    = match result with
      | AuthenticationException e =>
          Exited 1 (print (authentication_msg e slave) w)
      | NoValidConnectionsError errors =>
          Exited 1 (print (no_connection_msg errors slave EmptyString) w)
      | _ => Raised SSHException w
      end /\
  ((exists w', snd (check_ssh (before ++ (slave, result) :: rest) w)
               = Returned tt w') -> False).
Proof.
  split; [now apply check_ssh_connected |].
  rewrite check_ssh_first_failure by assumption. simpl.
  split; [reflexivity |].
  destruct result; try contradiction; simpl;
    (split; [reflexivity | intros [w' E]; discriminate]).
Qed.

Lemma check_ssh_stops_at_first_failure_witness :
  (forall entry, In entry [("w1", Connected)] -> snd entry = Connected) /\
  AuthenticationException "Authentication failed." <> Connected /\
  fst (check_ssh ([("w1", Connected)]
                  ++ ("w2", AuthenticationException "Authentication failed.")
                  :: [("w3", Connected)])
                 (mkWorld EmptyString []))
  = ["w1"; "w2"].
Proof.
  assert (H : forall entry, In entry [("w1", Connected)] -> snd entry = Connected)
    by (intros e [<-|[]]; reflexivity).
  assert (N : AuthenticationException "Authentication failed." <> Connected)
    by discriminate.
  split; [exact H |]. split; [exact N |].
  apply (check_ssh_stops_at_first_failure [("w1", Connected)]
           [("w3", Connected)] "w2"
           (AuthenticationException "Authentication failed.")
           (mkWorld EmptyString []) H N).
Defined.

(** ** [check_versions] as a whole *)












(** ** [check_slaves]: the four checks in a row *)










(** ** The monitor over time *)

Lemma handle_app requests requests' flag :
  MonitorRuns.handle (requests ++ requests') flag =
  (fst (MonitorRuns.handle requests' (fst (MonitorRuns.handle requests flag))),
   snd (MonitorRuns.handle requests flag)
   ++ snd (MonitorRuns.handle requests' (fst (MonitorRuns.handle requests flag))))%list.
Proof.
  revert flag. induction requests as [|[path client] rest IH]; intros flag.
  - simpl. now destruct (MonitorRuns.handle requests' flag).
  - cbn [app MonitorRuns.handle].
    destruct (Monitor.do_POST path client flag) as [f ev].
    rewrite IH. destruct (MonitorRuns.handle rest f) as [f' later]. reflexivity.
Qed.

Lemma do_POST_cases path client flag :
  Monitor.do_POST path client flag =
  if String.eqb path "/start-monitoring" then
    if flag then
      (true, Monitor._set_headers 405 "text/html"
             ++ [Monitor.WriteBody ("Monitoring is already active" ++ str1 LF)])%list
    else
      (true, [Monitor.StartTimer client; Monitor.PushStats client]
             ++ Monitor._set_headers 200 "text/html"
             ++ [Monitor.WriteBody "Success"])%list
  else if String.eqb path "/end-monitoring" then
    (false, Monitor._set_headers 200 "text/html" ++ [Monitor.WriteBody "Success"])%list
  else
    (flag, Monitor._set_headers 404 "text/html"
           ++ [Monitor.WriteBody ("Path not found" ++ str1 LF)])%list.
Proof.
  unfold Monitor.do_POST, Monitor.paths. cbn [existsb nth].
  destruct (String.eqb path "/start-monitoring"); cbn [orb negb];
    [destruct flag; reflexivity |].
  destruct (String.eqb path "/end-monitoring"); reflexivity.
Qed.

(** X17. After any run of requests the flag is decided by the last
    request alone when that is a control request: set after a start (also a
    refused one), cleared after a stop; a request to any other path leaves
    the flag as the earlier requests left it. *)
Theorem flag_follows_last_control_request
  (requests : list (string * string)) (path client_address : string)
  (flag : bool) :
  fst (MonitorRuns.handle (requests ++ [(path, client_address)]) flag) =
  if String.eqb path "/start-monitoring" then true
  else if String.eqb path "/end-monitoring" then false
  else fst (MonitorRuns.handle requests flag).
Proof.
  rewrite handle_app. cbn [fst MonitorRuns.handle].
  rewrite do_POST_cases.
  destruct (String.eqb path "/start-monitoring");
    [destruct (fst (MonitorRuns.handle requests flag)); reflexivity |].
  destruct (String.eqb path "/end-monitoring"); reflexivity.
Qed.

(** X18. The answer to a POST is 404 for a path that is not a control
    path, 405 for a start while monitoring is active, and 200 otherwise; a
    stop is answered 200 also when nothing was being monitored.  A timer is
    started, and statistics are pushed once, exactly by a start that finds
    monitoring inactive. *)
Theorem do_POST_answers (path client_address : string) (flag : bool) :
  let events := snd (Monitor.do_POST path client_address flag) in
  Monitor.status events =
    Some (if negb (existsb (String.eqb path) Monitor.paths) then 404
          else if String.eqb path "/start-monitoring" && flag then 405
          else 200)%Z /\
  MonitorRuns.timers_started events =
    (if String.eqb path "/start-monitoring" && negb flag then 1 else 0) /\
  MonitorRuns.pushes events = MonitorRuns.timers_started events /\
  (path = "/end-monitoring" ->
   Monitor.do_POST path client_address flag =
   (false, [Monitor.SendResponse 200;
            Monitor.SendHeader "Content-type" "text/html";
            Monitor.EndHeaders; Monitor.WriteBody "Success"])).
Proof.
  cbv zeta. rewrite do_POST_cases. unfold Monitor.paths. cbn [existsb].
  split; [| split; [| split]].
  - destruct (String.eqb path "/start-monitoring"); [destruct flag; reflexivity |].
    destruct (String.eqb path "/end-monitoring"); reflexivity.
  - destruct (String.eqb path "/start-monitoring"); [destruct flag; reflexivity |].
    destruct (String.eqb path "/end-monitoring"); reflexivity.
  - destruct (String.eqb path "/start-monitoring"); [destruct flag; reflexivity |].
    destruct (String.eqb path "/end-monitoring"); reflexivity.
  - intros ->. reflexivity.
Qed.

Lemma run_app inputs inputs' s :
  MonitorRuns.run (inputs ++ inputs') s =
  (fst (MonitorRuns.run inputs' (fst (MonitorRuns.run inputs s))),
   snd (MonitorRuns.run inputs s)
   ++ snd (MonitorRuns.run inputs' (fst (MonitorRuns.run inputs s))))%list.
Proof.
  revert s. induction inputs as [|i rest IH]; intros s.
  - simpl. now destruct (MonitorRuns.run inputs' s).
  - cbn [app MonitorRuns.run]. destruct (MonitorRuns.react i s) as [s1 ev].
    rewrite IH. destruct (MonitorRuns.run rest s1) as [s2 later].
    cbn [fst snd]. now rewrite app_assoc.
Qed.

Lemma ticks_while_inactive server n : forall t,
  MonitorRuns.run (repeat (MonitorRuns.Tick server) n)
                  (MonitorRuns.mkServer false t)
  = (MonitorRuns.mkServer false (t - n), []).
Proof.
  induction n as [|n IH]; intros t; [simpl; now rewrite Nat.sub_0_r |].
  cbn [repeat MonitorRuns.run MonitorRuns.react MonitorRuns.timers
       MonitorRuns.monitoring_active].
  destruct t as [|t]; cbn [Monitor.monitor negb MonitorRuns.timers_started
                           filter List.length].
  - rewrite IH. reflexivity.
  - rewrite Nat.add_0_r, IH. reflexivity.
Qed.

Lemma ticks_while_active server n : forall t,
  0 < t ->
  fst (MonitorRuns.run (repeat (MonitorRuns.Tick server) n)
                       (MonitorRuns.mkServer true t))
  = MonitorRuns.mkServer true t /\
  MonitorRuns.pushes
    (snd (MonitorRuns.run (repeat (MonitorRuns.Tick server) n)
                          (MonitorRuns.mkServer true t))) = n.
Proof.
  induction n as [|n IH]; intros t L; [auto |].
  cbn [repeat MonitorRuns.run MonitorRuns.react MonitorRuns.timers
       MonitorRuns.monitoring_active].
  destruct t as [|t]; [lia |].
  cbn [Monitor.monitor negb MonitorRuns.timers_started filter List.length].
  replace (t + 1) with (S t) by lia.
  destruct (IH (S t) L) as [E P].
  destruct (MonitorRuns.run (repeat (MonitorRuns.Tick server) n)
                            (MonitorRuns.mkServer true (S t))) as [s2 later].
  cbn [fst snd] in *. split; [exact E |].
  unfold MonitorRuns.pushes in *. cbn [app filter List.length]. now rewrite P.
Qed.

(** X19. Stopping cancels no timer.  After a stop every pending timer
    still fires once, pushes nothing and is not renewed, so [n] firings
    leave [t - n] timers and no event.  While monitoring is active every
    firing pushes once and renews its timer, so the number of pending
    timers stays what it was. *)
Theorem timers_drain_after_stop
  (main_server : string) (t n : nat) (Htimers : 0 < t) :
  MonitorRuns.run (repeat (MonitorRuns.Tick main_server) n)
                  (MonitorRuns.mkServer false t)
  = (MonitorRuns.mkServer false (t - n), []) /\
  fst (MonitorRuns.run (repeat (MonitorRuns.Tick main_server) n)
                       (MonitorRuns.mkServer true t))
  = MonitorRuns.mkServer true t /\
  MonitorRuns.pushes
    (snd (MonitorRuns.run (repeat (MonitorRuns.Tick main_server) n)
                          (MonitorRuns.mkServer true t))) = n.
Proof.
  split; [apply ticks_while_inactive | now apply ticks_while_active].
Qed.

Lemma timers_drain_after_stop_witness :
  0 < 1 /\
  MonitorRuns.run (repeat (MonitorRuns.Tick "10.0.0.1") 3)
                  (MonitorRuns.mkServer false 1)
  = (MonitorRuns.mkServer false 0, []).
Proof.
  split; [lia |].
  apply (timers_drain_after_stop "10.0.0.1" 1 3). lia.
Defined.

Lemma react_start_inactive client t :
  fst (MonitorRuns.react (MonitorRuns.Post "/start-monitoring" client)
                         (MonitorRuns.mkServer false t))
  = MonitorRuns.mkServer true (t + 1).
Proof. reflexivity. Qed.

Lemma react_stop client flag t :
  fst (MonitorRuns.react (MonitorRuns.Post "/end-monitoring" client)
                         (MonitorRuns.mkServer flag t))
  = MonitorRuns.mkServer false (t + 0).
Proof. reflexivity. Qed.

Lemma run_cons i rest s :
  fst (MonitorRuns.run (i :: rest) s) =
  fst (MonitorRuns.run rest (fst (MonitorRuns.react i s))).
Proof.
  change (MonitorRuns.run (i :: rest) s)
    with (let (s1, events) := MonitorRuns.react i s in
          let (s2, later) := MonitorRuns.run rest s1 in
          (s2, events ++ later)%list).
  destruct (MonitorRuns.react i s) as [s1 ev]. cbn [fst].
  destruct (MonitorRuns.run rest s1). reflexivity.
Qed.

Lemma restarts_pile_up client k : forall t,
  fst (MonitorRuns.run (MonitorRuns.restarts k client)
                       (MonitorRuns.mkServer false t))
  = MonitorRuns.mkServer false (t + k).
Proof.
  induction k as [|k IH]; intros t.
  - simpl. now rewrite Nat.add_0_r.
  - cbn [MonitorRuns.restarts].
    rewrite !run_cons, react_start_inactive, react_stop, IH.
    f_equal. lia.
Qed.

(** X20. Restarting faster than the timer fires piles timers up: [k]
    times start then stop, with no timer firing in between, leave [k] more
    timers pending than before; after one more start every one of them
    pushes and renews itself at each firing. *)
Theorem restarts_leave_timers_pending (client_address : string) (k t : nat) :
  fst (MonitorRuns.run (MonitorRuns.restarts k client_address)
                       (MonitorRuns.mkServer false t))
  = MonitorRuns.mkServer false (t + k) /\
  fst (MonitorRuns.run
         (MonitorRuns.restarts k client_address
          ++ [MonitorRuns.Post "/start-monitoring" client_address])
         (MonitorRuns.mkServer false t))
  = MonitorRuns.mkServer true (t + k + 1).
Proof.
  pose proof (restarts_pile_up client_address k t) as E.
  split; [exact E |].
  rewrite run_app. cbn [fst]. rewrite E. reflexivity.
Qed.

(** ** Counting again, with the slaves that fail *)

(** X21. When the inventory of [check_versions] completes, each map holds
    one entry for every slave whose dialogue ran to the end, none for the
    others, and one for the master, unless the master's version is the
    word none: the dictionary display of lines 217 and 219 then keeps the
    empty none bucket and the master is in no bucket. *)
Theorem inventory_total_entries
  (env : environment) (jv hv : dict) (Hinv : inventory_of env jv hv) :
  total_entries jv =
    (if String.eqb "none" (get_java_version (java_stderr env)) then 0 else 1)
    + List.length (filter (completes (connect env)) (slaves env)) /\
  total_entries hv =
    (if String.eqb "none" (get_hadoop_version (hadoop_stdout env)) then 0 else 1)
    + List.length (filter (completes (connect env)) (slaves env)).
Proof.
  destruct Hinv as (w & jv0 & hv0 & w0 & Hs & Hc).
  apply seed_versions_returns in Hs as [-> ->].
  apply check_java_hadoop_slaves_count in Hc; try apply initial_vers_none.
  rewrite !initial_vers_total in Hc. tauto.
Qed.

Lemma refusing_inventory_exists : exists jv hv, inventory_of refusing_env jv hv.
Proof.
  apply inventory_of_exists; try (vm_compute; discriminate).
  intros s _. unfold refusing_env, remote_versions. simpl.
  destruct (String.eqb s "w1"); vm_compute; discriminate.
Defined.

Lemma inventory_total_entries_witness :
  exists jv hv,
    inventory_of refusing_env jv hv /\
    total_entries jv = 2 /\ total_entries hv = 2.
Proof.
  destruct refusing_inventory_exists as (jv & hv & Hinv).
  exists jv, hv. split; [exact Hinv |].
  apply (inventory_total_entries refusing_env jv hv Hinv).
Defined.

(** ** Files are written by the report writer only *)

Lemma report_skews_files measured : forall above w,
  files (snd (report_skews above w measured)) = files w.
Proof.
  intros above w. now rewrite report_skews_spec.
Qed.

(** X22. The checks themselves write no file: however [check_ping],
    [check_ssh], the two reconciliation checks and [check_time_skew] end,
    the files are those they found. *)
Theorem checks_write_no_file
  (pinged : list (string * string)) (attempts : list (string * ssh_connect))
  (vers : dict) (which_clockdiff : string) (measured : list (string * Z))
  (w : world) :
  files (final_world (check_ping pinged w)) = files w /\
  files (final_world (snd (check_ssh attempts w))) = files w /\
  files (final_world (check_java_none vers w)) = files w /\
  files (final_world (check_hadoop_none vers w)) = files w /\
  files (final_world (check_time_skew which_clockdiff measured w)) = files w.
Proof.
  split; [| split; [| split; [| split]]].
  - rewrite check_ping_cases.
    destruct (slaves_with ping_unknown pinged); [| reflexivity].
    destruct (slaves_with ping_failed pinged); [| reflexivity].
    destruct (slaves_with ping_ok pinged); reflexivity.
  - induction attempts as [|[slave r] rest IH]; [reflexivity |].
    simpl. destruct r; try reflexivity.
    destruct (check_ssh rest w). exact IH.
  - unfold check_java_none, check_none.
    destruct (getitem "none" vers) as [[|h hs]|]; reflexivity.
  - unfold check_hadoop_none, check_none.
    destruct (getitem "none" vers) as [[|h hs]|]; reflexivity.
  - destruct (String.eqb_spec which_clockdiff EmptyString) as [->|N];
      [reflexivity |].
    rewrite (check_time_skew_spec _ _ _ N). cbv zeta.
    destruct (existsb _ measured); reflexivity.
Qed.
